(** * XScout dashboard: the scoring functions of [dashboard/app.js]

    A shallow embedding of the scouting analytics of [app.js]: the overall
    rating, the role-fit score, the Euclidean similarity, the role
    leaderboard and the similar-player shortlist.

    Numbers.  A JavaScript number is an IEEE 754 binary64 value.  The three
    scoring functions are embedded twice.  In the module [Binary64] they
    are as the engine computes them: every operation rounds to the nearest
    binary64 value, and a result may be an infinity or [NaN].  Outside the
    module they are the same expressions over exact values, a rational
    ([Q]) wherever the code only adds, subtracts, multiplies, divides,
    compares and rounds, and a real ([R]) where it takes a square root:
    this is the formula the code stands for, with every number finite and
    no rounding error.  What is said of the value of a score is proved of
    the [Binary64] function, against the exact one; the two can differ by
    1.  The rankings, the shortlist and the page functions are built on
    the exact scores, where [NaN] appears in one place, the result of
    [parseInt]; it is [None] of an [option].

    Objects.  A player record of [players.json] is a record with the typed
    fields of the dataset schema and a finite map from metric key to value
    for its metric columns; [player[m]] for a metric key [m] is a lookup in
    that map.  The globals [METRICS] and [PLAYERS] are passed explicitly. *)

From Stdlib Require Import ZArith QArith Qpower Qround Qminmax Qabs Qreals Reals Psatz.
From Stdlib Require Import Ascii String SpecFloat.
From stdpp Require Import gmap strings list sorting.

Local Open Scope Z_scope.

(** ** JavaScript built-ins used by the code *)

(** [Math.round x]: the integer nearest to [x], a tie going up. *)
Definition Math_round (x : Q) : Z := Qfloor (x + (1 # 2)).

(** [Math.round] on a value that went through [Math.sqrt]. *)
Definition Math_round_R (x : R) : Z := Int_part (x + / 2).

(** [Math.min x y]. *)
Definition Math_min (x y : Q) : Q := Qmin x y.

(** [Math.pow x 2]. *)
Definition Math_pow2 (x : Q) : Q := (x ^ 2)%Q.

(** [v || 0] on the result of a property read: an absent property
    ([undefined]) gives [0]; a number is kept ([0] itself is falsy and is
    replaced by [0]). *)
Definition or0 (v : option Q) : Q := default 0%Q v.

(** A completion of a JavaScript function body: it returns normally or it
    throws. *)
Inductive completion (A : Type) : Type :=
  | Normal (a : A)
  | Throw (message : string).
Arguments Normal {A} a.
Arguments Throw {A} message.

(** *** [Array.prototype.sort]

    The sort is stable, and [comparefn a b > 0] asks for [a] after [b].
    For a consistent comparator this determines the result; insertion from
    the right end computes it. *)
Section ArraySort.
Context {A : Type}.
Variable comparefn : A -> A -> Z.

Fixpoint sort_insert (x : A) (l : list A) : list A :=
  match l with
  | [] => [x]
  | y :: l' => if comparefn x y <=? 0 then x :: y :: l' else y :: sort_insert x l'
  end.

Definition Array_sort (l : list A) : list A := foldr sort_insert [] l.
End ArraySort.

(** [arr.slice(0, n)]. *)
Definition slice0 {A : Type} (n : nat) (l : list A) : list A := take n l.

(** *** [parseInt] with no radix argument

    Leading white space is skipped, then an optional sign, then an optional
    [0x] prefix (which selects radix 16); the longest prefix of digits of
    the radix is the value.  No digit at all gives [NaN], here [None].
    Strings are byte strings: the white space recognised is the ASCII
    one (tab, line feed, vertical tab, form feed, carriage return,
    space). *)
Definition is_white_space (c : ascii) : bool :=
  let n := nat_of_ascii c in
  ((9 <=? n) && (n <=? 13))%nat || (n =? 32)%nat.

Fixpoint trim_start (s : string) : string :=
  match s with
  | String c s' => if is_white_space c then trim_start s' else s
  | EmptyString => EmptyString
  end.

Definition digit_value (c : ascii) : option Z :=
  let n := Z.of_nat (nat_of_ascii c) in
  if (48 <=? n) && (n <=? 57) then Some (n - 48)
  else if (97 <=? n) && (n <=? 122) then Some (n - 87)
  else if (65 <=? n) && (n <=? 90) then Some (n - 55)
  else None.

Fixpoint parse_digits (radix : Z) (s : string) (acc : option Z) : option Z :=
  match s with
  | String c s' =>
      match digit_value c with
      | Some d =>
          if d <? radix then parse_digits radix s' (Some (default 0 acc * radix + d))
          else acc
      | None => acc
      end
  | EmptyString => acc
  end.

Definition parseInt (input : string) : option Z :=
  let s := trim_start input in
  let '(sign, s) :=
    match s with
    | String "-"%char s' => (-1, s')
    | String "+"%char s' => (1, s')
    | _ => (1, s)
    end in
  let '(radix, s) :=
    match s with
    | String "0"%char (String "x"%char s') => (16, s')
    | String "0"%char (String "X"%char s') => (16, s')
    | _ => (10, s)
    end in
  Z.mul sign <$> parse_digits radix s None.

(** ** Data *)

(** A [player_id] of the dataset is a number or a string; [!==] compares
    without coercion. *)
Inductive ident : Type :=
  | IdNum (n : Z)
  | IdStr (s : string).

Definition ident_eqb (x y : ident) : bool :=
  match x, y with
  | IdNum n, IdNum m => n =? m
  | IdStr s, IdStr t => String.eqb s t
  | _, _ => false
  end.

(** One row of [players.json].  [overall] is attached by [loadData]. *)
Record Player : Type := {
  player_id : ident;
  name : string;
  position : string;
  age : Z;
  minutes_played : Z;
  metrics : gmap string Q;
  overall : option Z
}.

(** [player[m]] for a metric key [m]. *)
Definition get (player : Player) (m : string) : option Q := metrics player !! m.

(** The catalog of [app.js]. *)
Definition METRICS : list string :=
  [ "shots_p90"; "xg_p90"; "shot_conversion";
    "prog_passes_p90"; "pass_completion"; "key_passes_p90";
    "dribbles_p90"; "pressures_p90"; "press_success";
    "aerial_win_rate"; "distance_p90" ]%string.

(** The role templates of [app.js], in declaration order. *)
Definition ROLES : list (string * list (string * Q)) :=
  [ ("Poacher",
      [ ("shot_conversion", 0.30); ("xg_p90", 0.25); ("shots_p90", 0.20);
        ("aerial_win_rate", 0.15); ("press_success", 0.10) ]);
    ("Target Man",
      [ ("aerial_win_rate", 0.30); ("xg_p90", 0.25); ("shot_conversion", 0.20);
        ("pressures_p90", 0.15); ("dribbles_p90", 0.10) ]);
    ("Winger",
      [ ("dribbles_p90", 0.30); ("shots_p90", 0.20); ("key_passes_p90", 0.20);
        ("distance_p90", 0.15); ("press_success", 0.15) ]);
    ("Box-to-Box MF",
      [ ("distance_p90", 0.25); ("prog_passes_p90", 0.20); ("pressures_p90", 0.20);
        ("dribbles_p90", 0.15); ("shots_p90", 0.20) ]);
    ("Ball-Playing Def",
      [ ("pass_completion", 0.30); ("prog_passes_p90", 0.25); ("key_passes_p90", 0.20);
        ("aerial_win_rate", 0.15); ("pressures_p90", 0.10) ]);
    ("Deep-Lying Playmaker",
      [ ("key_passes_p90", 0.30); ("pass_completion", 0.30); ("prog_passes_p90", 0.25);
        ("xg_p90", 0.15) ]);
    ("Pressing Winger",
      [ ("pressures_p90", 0.30); ("press_success", 0.25); ("distance_p90", 0.20);
        ("dribbles_p90", 0.25) ]) ]%string%Q.

(** ** Utilities of [app.js]

    The three scoring functions over exact values; the module [Binary64]
    below has them with the rounding of the engine. *)

(** [calcRoleFit(player, roleWeights)]; [roleWeights] is the object's
    entries in their order. *)
Definition calcRoleFit (player : Player) (roleWeights : list (string * Q)) : Z :=
  let score :=
    fold_left (fun score '(attr, weight) => (score + or0 (get player attr) * weight)%Q)
              roleWeights 0%Q in
  Math_round (Math_min score 99).

(** The functions below read the global [METRICS]; it is their first
    argument here.  For an empty catalog the code divides zero by zero and
    gets [NaN], which the exact functions have no value for: statements
    about a catalog assume it has an entry. *)
Section Catalog.
Variable METRICS : list string.

(** [euclideanSimilarity(a, b)]. *)
Definition sum_sq (a b : Player) : Q :=
  fold_left (fun sum m => (sum + Math_pow2 (or0 (get a m) - or0 (get b m)))%Q)
            METRICS 0%Q.

Definition euclideanSimilarity (a b : Player) : Z :=
  let sum := sum_sq a b in
  let dist := sqrt (Q2R sum) in
  let maxDist := sqrt (Q2R (inject_Z (Z.of_nat (length METRICS)) * 100 * 100)) in
  Math_round_R ((1 - dist / maxDist) * 100)%R.

(** [computeOverall(player)]. *)
Definition computeOverall (player : Player) : Z :=
  let vals := map (fun m => or0 (get player m)) METRICS in
  Math_round (fold_left Qplus vals 0%Q / inject_Z (Z.of_nat (length vals))).
End Catalog.

(** An executable form of [euclideanSimilarity]: with [u = 200 * dist /
    maxDist], the rounded score is [floor ((201 - u) / 2)], and the ceiling
    of [u] is an integer square root.  [euclideanSimilarity_exec_correct]
    below proves the two equal. *)
Definition euclideanSimilarity_exec (METRICS : list string) (a b : Player) : Z :=
  let sum := sum_sq METRICS a b in
  let n := inject_Z (Z.of_nat (length METRICS)) in
  (201 - Z.sqrt_up (Qceiling (40000 * sum / (n * 100 * 100)))) / 2.

(** ** Data loading *)




Section Load.
Variable localeCompare : string -> string -> Z.

End Load.

(** ** Module 3: role fit *)

(** [{ role, fit }]. *)
Record RoleFit : Type := { role : string; role_fit : Z }.

(** [{ ...pl, fit }]. *)
Record PlayerFit : Type := { fit_player : Player; fit : Z }.

(** The leaderboard expression of [renderRoleFit]:
    [PLAYERS.map(pl => ({ ...pl, fit: calcRoleFit(pl, weights) }))
            .sort((a, b) => b.fit - a.fit).slice(0, 20)]. *)
Definition leaderboard (PLAYERS : list Player) (weights : list (string * Q))
  : list PlayerFit :=
  slice0 20
    (Array_sort (fun a b => fit b - fit a)
       (map (fun pl => {| fit_player := pl; fit := calcRoleFit pl weights |}) PLAYERS)).

(** [ROLES[name]]. *)
Fixpoint ROLES_lookup (roles : list (string * list (string * Q))) (key : string)
  : option (list (string * Q)) :=
  match roles with
  | [] => None
  | (k, weights) :: roles' => if String.eqb k key then Some weights else ROLES_lookup roles' key
  end.

(** What [renderRoleFit] puts on the page. *)
Record RoleFitView : Type := {
  view_fits : list RoleFit;
  view_best : RoleFit;
  view_leaderboard : list PlayerFit
}.

(** [renderRoleFit()]; [role_select] is the value of the select, an index
    into [PLAYERS] written by [populateSelect].  [Normal None] is the early
    return.  Reading a property of [undefined] throws. *)
Definition renderRoleFit (PLAYERS : list Player) (role_select : nat)
  : completion (option RoleFitView) :=
  match PLAYERS !! role_select with
  | None => Normal None
  | Some p =>
      let fits :=
        Array_sort (fun a b => role_fit b - role_fit a)
          (map (fun '(r, weights) => {| role := r; role_fit := calcRoleFit p weights |}) ROLES) in
      match fits with
      | [] => Throw "TypeError"
      | best :: _ =>
          match ROLES_lookup ROLES (role best) with
          | None => Throw "TypeError"
          | Some weights =>
              Normal (Some {| view_fits := fits; view_best := best;
                              view_leaderboard := leaderboard PLAYERS weights |})
          end
      end
  end.

(** ** Module 4: similar players *)

(** [{ ...p, sim }]. *)
Record PlayerSim : Type := { sim_player : Player; sim : Z }.

(** The three controls [renderSimilar] reads. *)
Record SimilarControls : Type := {
  similar_select : nat;
  similar_pos_filter : string;
  similar_age_filter : string
}.

(** [x <= y] where [y] may be [NaN]: a comparison with [NaN] is false. *)
Definition number_le (x : Z) (y : option Z) : bool :=
  match y with
  | Some n => x <=? n
  | None => false
  end.

(** [renderSimilar()]: the list [scored] it renders.  [Normal None] is
    the early return when no reference player is selected. *)
Definition renderSimilar (PLAYERS : list Player) (controls : SimilarControls)
  : completion (option (list PlayerSim)) :=
  match PLAYERS !! similar_select controls with
  | None => Normal None
  | Some ref =>
      let posFilter := similar_pos_filter controls in
      let ageFilter := parseInt (similar_age_filter controls) in
      let pool := List.filter (fun p => negb (ident_eqb (player_id p) (player_id ref))) PLAYERS in
      let pool :=
        if negb (String.eqb posFilter "all")
        then List.filter (fun p => String.eqb (position p) posFilter) pool
        else pool in
      let pool := List.filter (fun p => number_le (age p) ageFilter) pool in
      let scored :=
        slice0 5
          (Array_sort (fun a b => sim b - sim a)
             (map (fun p => {| sim_player := p; sim := euclideanSimilarity METRICS ref p |}) pool)) in
      Normal (Some scored)
  end.

(** ** The specification's vocabulary *)

(** [z] is [v] rounded to the nearest integer, a tie going up. *)
Definition rounds_to (v : Q) (z : Z) : Prop :=
  (inject_Z z - (1 # 2) <= v /\ v < inject_Z z + (1 # 2))%Q.

Definition rounds_to_R (v : R) (z : Z) : Prop :=
  (IZR z - / 2 <= v /\ v < IZR z + / 2)%R.

(** The sum of a list of numbers. *)
Definition Qsum (l : list Q) : Q := foldr Qplus 0%Q l.

(** The value of metric [m] for [player], an absent one counting as 0. *)
Definition metric_value (player : Player) (m : string) : Q :=
  match metrics player !! m with
  | Some v => v
  | None => 0%Q
  end.

(** The weighted sum of a template over a player. *)
Definition weighted_sum (player : Player) (template : list (string * Q)) : Q :=
  Qsum (map (fun '(m, w) => (w * metric_value player m)%Q) template).

(** The squared Euclidean distance of two players over a catalog. *)
Definition squared_distance (catalog : list string) (a b : Player) : Q :=
  Qsum (map (fun m => ((metric_value a m - metric_value b m)
                       * (metric_value a m - metric_value b m))%Q) catalog).

(** The arithmetic mean of a player's metrics over a catalog. *)
Definition metric_mean (catalog : list string) (player : Player) : Q :=
  (Qsum (map (metric_value player) catalog) / inject_Z (Z.of_nat (length catalog)))%Q.


(** The comparator [(a, b) => key b - key a] of the code's rankings. *)
Definition by_key_desc {A : Type} (key : A -> Z) : A -> A -> Z :=
  fun a b => key b - key a.

(** [l] is in the order a comparator asks for. *)
Definition sorted_by {A : Type} (comparefn : A -> A -> Z) (l : list A) : Prop :=
  StronglySorted (fun x y => comparefn x y <= 0) l.


(** Two players agree on the metrics of a catalog. *)
Definition agree_on (catalog : list string) (p q : Player) : Prop :=
  Forall (fun m => metric_value p m == metric_value q m)%Q catalog.

(** ** Sample records for the examples *)

Definition sample (id : Z) (nm pos : string) (years : Z) (columns : list (string * Q))
  : Player :=
  {| player_id := IdNum id; name := nm; position := pos; age := years;
     minutes_played := 900; metrics := list_to_map columns; overall := None |}.

Definition ada : Player :=
  sample 1 "Ada" "FW" 24
    [ ("shots_p90", 80); ("xg_p90", 70); ("shot_conversion", 60);
      ("aerial_win_rate", 50); ("press_success", 40) ]%string%Q.

Definition bo : Player :=
  sample 2 "Bo" "FW" 27
    [ ("shots_p90", 60); ("xg_p90", 70); ("dribbles_p90", 90);
      ("key_passes_p90", 55.5) ]%string%Q.

Definition cy : Player :=
  sample 3 "Cy" "MF" 31
    [ ("pass_completion", 88); ("prog_passes_p90", 75); ("distance_p90", 64) ]%string%Q.

(** Ada's numbers under another identity, with a column outside the catalog. *)
Definition ada_renamed : Player :=
  {| player_id := IdStr "p-77"; name := "Zed"; position := "GK"; age := 39;
     minutes_played := 12;
     metrics := <["shirt_number" := 9%Q]> (metrics ada);
     overall := Some 3 |}.



(** A template with a negative weight. *)
Definition penalising : list (string * Q) := [ ("shots_p90", - (1))%Q ]%string.

Definition squad : list Player := [ada; bo; cy].




(** The controls of the similar-player panel: Ada selected, every
    position, and an age ceiling. *)
Definition controls_with_age (ceiling : string) : SimilarControls :=
  {| similar_select := 0; similar_pos_filter := "all"; similar_age_filter := ceiling |}.

(** The players of the specification's two-metric scenarios. *)
Definition player_x : Player := sample 11 "X" "FW" 20 [ ("A", 80); ("B", 20) ]%string%Q.
Definition player_y : Player := sample 12 "Y" "FW" 20 [ ("A", 20); ("B", 80) ]%string%Q.
Definition player_p : Player := sample 13 "P" "FW" 20 [ ("A", 100); ("B", 100) ]%string%Q.

(** ** Further functions of [app.js] *)

(** *** Strings

    Strings are byte strings: what follows is the behaviour of the code
    on ASCII text. *)

(** [s.split(' ')]. *)
Fixpoint split_space (s : string) : list string :=
  match s with
  | EmptyString => [EmptyString]
  | String c s' =>
      if Ascii.eqb c " " then EmptyString :: split_space s'
      else
        match split_space s' with
        | w :: ws => String c w :: ws
        | [] => [String c EmptyString]
        end
  end.

(** [w[0]]: the first character, [undefined] for the empty string. *)
Definition first_char (w : string) : option ascii :=
  match w with
  | String c _ => Some c
  | EmptyString => None
  end.

(** [Boolean(v)] for a one-character string or [undefined]. *)
Definition truthy_char (v : option ascii) : bool :=
  match v with
  | Some _ => true
  | None => false
  end.

(** [arr.join('')]; [undefined] joins as the empty string. *)
Fixpoint join_chars (l : list (option ascii)) : string :=
  match l with
  | [] => EmptyString
  | Some c :: l' => String c (join_chars l')
  | None :: l' => join_chars l'
  end.

(** [s.toUpperCase()]. *)
Definition upper_char (c : ascii) : ascii :=
  let n := nat_of_ascii c in
  if ((97 <=? n) && (n <=? 122))%nat then ascii_of_nat (n - 32) else c.

Fixpoint toUpperCase (s : string) : string :=
  match s with
  | EmptyString => EmptyString
  | String c s' => String (upper_char c) (toUpperCase s')
  end.

(** [initials(name)]. *)
Definition initials (name : string) : string :=
  toUpperCase
    (join_chars (slice0 2 (List.filter truthy_char (map first_char (split_space name))))).

(** [x > y] on numbers. *)
Definition number_gt (x y : Q) : bool := negb (Qle_bool x y).

(** [getBarColor(val)]. *)
Definition getBarColor (val : Q) : string :=
  if Qle_bool 85 val then "#b8ff57"
  else if Qle_bool 70 val then "#00e5ff"
  else if Qle_bool 55 val then "#ffd166"
  else "#ff5e3a".

(** *** Radar axes *)

(** [{ key, label, metrics }]. *)
Record RadarAxis : Type := {
  axis_key : string;
  axis_label : string;
  axis_metrics : list string
}.

Definition RADAR_AXES : list RadarAxis :=
  [ {| axis_key := "attacking"; axis_label := "ATT";
       axis_metrics := ["shots_p90"; "xg_p90"; "shot_conversion"] |};
    {| axis_key := "creative"; axis_label := "CRE";
       axis_metrics := ["key_passes_p90"; "prog_passes_p90"] |};
    {| axis_key := "passing"; axis_label := "PAS";
       axis_metrics := ["pass_completion"; "prog_passes_p90"] |};
    {| axis_key := "dribbling"; axis_label := "DRI";
       axis_metrics := ["dribbles_p90"] |};
    {| axis_key := "defending"; axis_label := "DEF";
       axis_metrics := ["pressures_p90"; "press_success"] |};
    {| axis_key := "physical"; axis_label := "PHY";
       axis_metrics := ["aerial_win_rate"; "distance_p90"] |} ]%string.

(** [getRadarValue(player, axis)].  An axis with no metric divides zero by
    zero; statements about an axis assume it has a metric. *)
Definition getRadarValue (player : Player) (axis : RadarAxis) : Q :=
  let vals := map (fun m => or0 (get player m)) (axis_metrics axis) in
  (fold_left Qplus vals 0 / inject_Z (Z.of_nat (length vals)))%Q.

(** An axis handed to [drawRadar]: a metric key ([typeof axis === 'string'])
    or an axis object. *)
Inductive Axis : Type :=
  | MetricAxis (m : string)
  | GroupAxis (axis : RadarAxis).

(** In [drawRadar]: [val], the share of the radius an axis gets. *)
Definition radar_val (p : Player) (axis : Axis) : Q :=
  match axis with
  | MetricAxis m => (or0 (get p m) / 100)%Q
  | GroupAxis a => (getRadarValue p a / 100)%Q
  end.

(** In [drawRadar]: [r = (size - margin * 2) / 2] with [margin = 40]. *)
Definition radar_radius (size : Q) : Q := ((size - 40 * 2) / 2)%Q.

(** In [drawRadar]: the array [points] of one player's polygon, which is
    also where its dots are drawn. *)
Definition radar_points (size : Q) (axes : list Axis) (p : Player) : list (R * R) :=
  let r := Q2R (radar_radius size) in
  let n := length axes in
  let angleSlice := (PI * 2 / INR n)%R in
  imap (fun i axis =>
          let val := Q2R (radar_val p axis) in
          let angle := (angleSlice * INR i - PI / 2)%R in
          (cos angle * r * val, sin angle * r * val)%R) axes.

(** *** Module 1: overview *)

(** The sign of a number: all that [sort] reads of what a comparator
    returns. *)
Definition Number_sign (x : Q) : Z := Z.sgn (Qnum x).

(** [arr.slice(-n)]. *)
Definition slice_last {A : Type} (n : nat) (l : list A) : list A :=
  drop (length l - n) l.

(** What [renderOverview] computes before it writes the page: the tags of
    the five strongest and three weakest metrics, the bar of every metric
    (key, width, colour), and the three best roles with their fit. *)
Record OverviewView : Type := {
  top5 : list string;
  bot3 : list string;
  bars : list (string * Q * string);
  suitability : list (string * Z)
}.

(** [renderOverview()]; [None] is the early return. *)
Definition renderOverview (METRICS : list string) (PLAYERS : list Player)
    (overview_select : nat) : option OverviewView :=
  match PLAYERS !! overview_select with
  | None => None
  | Some p =>
      let sorted :=
        Array_sort (fun a b => Number_sign (or0 (get p b) - or0 (get p a))) METRICS in
      Some {| top5 := slice0 5 sorted;
              bot3 := slice_last 3 sorted;
              bars := map (fun attr => (attr, or0 (get p attr), getBarColor (or0 (get p attr))))
                          METRICS;
              suitability :=
                map (fun '(r, weights) => (r, calcRoleFit p weights))
                    (slice0 3
                       (Array_sort
                          (fun a b => calcRoleFit p (snd b) - calcRoleFit p (snd a))
                          ROLES)) |}
  end.

(** *** Module 2: comparison *)

(** [+x.toFixed(1)]: [x] to one decimal, a tie going away from zero. *)
Definition toFixed1 (x : Q) : Q :=
  if Qle_bool 0 x then (inject_Z (Math_round (x * 10)) / 10)%Q
  else (- (inject_Z (Math_round (- x * 10)) / 10))%Q.

(** A row of the difference table: the metric, both values, [diff], the
    class of the difference cell and the text of the advantage tag. *)
Record DiffRow : Type := {
  row_attr : string;
  row_av : Q;
  row_bv : Q;
  row_diff : Q;
  row_class : string;
  row_tag : string
}.

(** [name.split(' ')[0]]. *)
Definition first_name (nm : string) : string := hd EmptyString (split_space nm).

(** What [renderCompare] computes: the two lead counts of the verdict
    and the rows of the difference table. *)
Record CompareView : Type := {
  aWins : Z;
  bWins : Z;
  diff_rows : list DiffRow
}.

(** The counting loop of [renderCompare]. *)
Definition lead_counts (METRICS : list string) (a b : Player) : Z * Z :=
  fold_left
    (fun '(aWins, bWins) m =>
       if number_gt (or0 (get a m)) (or0 (get b m)) then (aWins + 1, bWins)
       else if number_gt (or0 (get b m)) (or0 (get a m)) then (aWins, bWins + 1)
       else (aWins, bWins))
    METRICS (0, 0).

Definition diff_row (a b : Player) (attr : string) : DiffRow :=
  let av := or0 (get a attr) in
  let bv := or0 (get b attr) in
  let diff := toFixed1 (av - bv) in
  {| row_attr := attr; row_av := av; row_bv := bv; row_diff := diff;
     row_class := if number_gt diff 0 then "diff-pos"
                  else if number_gt 0 diff then "diff-neg" else "diff-neu";
     row_tag := if number_gt diff 0 then first_name (name a)
                else if number_gt 0 diff then first_name (name b) else "EQUAL" |}.

(** [renderCompare()]; [None] is the early return. *)
Definition renderCompare (METRICS : list string) (PLAYERS : list Player)
    (compare_a compare_b : nat) : option CompareView :=
  match PLAYERS !! compare_a, PLAYERS !! compare_b with
  | Some a, Some b =>
      let '(aw, bw) := lead_counts METRICS a b in
      Some {| aWins := aw; bWins := bw; diff_rows := map (diff_row a b) METRICS |}
  | _, _ => None
  end.

(** Sample records for the further examples: Bo with one metric a
    hair above, and a record below Ada on every metric. *)
Definition bo_plus : Player :=
  sample 6 "Bo Plus" "FW" 27
    [ ("shots_p90", 60.04); ("xg_p90", 70); ("dribbles_p90", 90);
      ("key_passes_p90", 55.5) ]%string%Q.

Definition ada_junior : Player :=
  sample 7 "Ada Junior" "FW" 17
    [ ("shots_p90", 40); ("xg_p90", 35); ("shot_conversion", 60);
      ("aerial_win_rate", 10); ("press_success", 40) ]%string%Q.

(** ** The scores as the engine computes them: binary64

    A JavaScript number is an IEEE 754 binary64 value, and every [+], [-],
    [*], [/] and [Math.sqrt] of the three scoring functions rounds its
    exact result to the nearest such value, a tie going to the even
    mantissa.  This module is the three functions with that arithmetic:
    [spec_float] at precision 53 and exponent bound 1024 is the format,
    and [SFadd], [SFsub], [SFmul], [SFdiv] and [SFsqrt] are the correctly
    rounded operations.  The definitions of the same names outside the
    module are these functions with the rounding of every operation left
    out. *)
Module Binary64.

Definition num : Type := spec_float.
Definition prec : Z := 53.
Definition emax : Z := 1024.

Definition add : num -> num -> num := SFadd prec emax.
Definition sub : num -> num -> num := SFsub prec emax.
Definition mul : num -> num -> num := SFmul prec emax.
Definition div : num -> num -> num := SFdiv prec emax.

(** An integer of the code ([0], [1], [99], [100], [METRICS.length]). *)
Definition of_Z (z : Z) : num := binary_normalize prec emax z 0 false.

(** The number a decimal numeral stands for, in the source text or in
    [players.json]: the binary64 value nearest to it.  The quotient of two
    integers below [2^53] is rounded once, so this is that value for every
    numeral [n / d] with [n] and [d] below [2^53]. *)
Definition of_decimal (q : Q) : num := div (of_Z (Qnum q)) (of_Z (Zpos (Qden q))).

(** The exact value of a finite number. *)
Definition to_Q (x : num) : option Q :=
  match x with
  | S754_zero _ => Some 0%Q
  | S754_finite s m e => Some (inject_Z (cond_Zopp s (Zpos m)) * 2 ^ e)%Q
  | _ => None
  end.

(** The integer a number is, if it is one. *)
Definition to_int (x : num) : option Z :=
  match x with
  | S754_zero _ => Some 0
  | S754_finite s m e =>
      if 0 <=? e then Some (cond_Zopp s (Zpos m) * 2 ^ e)
      else if Zpos m mod 2 ^ (- e) =? 0 then Some (cond_Zopp s (Zpos m / 2 ^ (- e)))
      else None
  | _ => None
  end.

(** The order of two numbers, [None] when one is [NaN]; finite numbers
    are compared by value. *)
Definition compare (x y : num) : option comparison :=
  match x, y with
  | S754_finite sx mx ex, S754_finite sy my ey =>
      Some (inject_Z (cond_Zopp sx (Zpos mx)) * 2 ^ ex
            ?= inject_Z (cond_Zopp sy (Zpos my)) * 2 ^ ey)%Q
  | _, _ => SFcompare x y
  end.

(** [Math.min x y]: [NaN] if either is; [-0] is below [+0]. *)
Definition Math_min (x y : num) : num :=
  match compare x y with
  | None => S754_nan
  | Some Lt => x
  | Some Gt => y
  | Some Eq => match x with S754_zero true => x | _ => y end
  end.

(** [Math.round x]: [NaN], the infinities, the zeros and the integers are
    returned as they are (a number with a non-negative exponent is an
    integer); otherwise the nearest integer, a tie going up, and a zero
    result keeps the sign of [x]. *)
Definition Math_round (x : num) : num :=
  match x with
  | S754_finite s m e =>
      if 0 <=? e then x
      else
        match Qfloor (inject_Z (cond_Zopp s (Zpos m)) * 2 ^ e + (1 # 2)) with
        | 0 => S754_zero s
        | z => of_Z z
        end
  | _ => x
  end.

(** [Math.pow x 2], taken to be the product [x * x] rounded once. *)
Definition Math_pow2 (x : num) : num := mul x x.

Definition Math_sqrt : num -> num := SFsqrt prec emax.

(** [v || 0]: [undefined], [NaN] and both zeros are falsy and give [+0]. *)
Definition or0 (v : option num) : num :=
  match v with
  | Some (S754_zero _) | Some S754_nan | None => S754_zero false
  | Some x => x
  end.

(** [player[m]] for a metric key [m]: the column holds the numeral of the
    dataset, the engine its binary64 value. *)
Definition get (player : Player) (m : string) : option num :=
  of_decimal <$> metrics player !! m.

(** [calcRoleFit(player, roleWeights)]. *)
Definition calcRoleFit (player : Player) (roleWeights : list (string * Q)) : num :=
  let score :=
    fold_left (fun score '(attr, weight) =>
                 add score (mul (or0 (get player attr)) (of_decimal weight)))
              roleWeights (of_Z 0) in
  Math_round (Math_min score (of_Z 99)).

Section Catalog.
Variable METRICS : list string.

(** [euclideanSimilarity(a, b)]. *)
Definition sum_sq (a b : Player) : num :=
  fold_left (fun sum m => add sum (Math_pow2 (sub (or0 (get a m)) (or0 (get b m)))))
            METRICS (of_Z 0).

Definition euclideanSimilarity (a b : Player) : num :=
  let sum := sum_sq a b in
  let dist := Math_sqrt sum in
  let maxDist :=
    Math_sqrt (mul (mul (of_Z (Z.of_nat (length METRICS))) (of_Z 100)) (of_Z 100)) in
  Math_round (mul (sub (of_Z 1) (div dist maxDist)) (of_Z 100)).

(** [computeOverall(player)]. *)
Definition computeOverall (player : Player) : num :=
  let vals := map (fun m => or0 (get player m)) METRICS in
  Math_round (div (fold_left add vals (of_Z 0)) (of_Z (Z.of_nat (length vals)))).
End Catalog.

(** *** The specification's formulas, every operation rounded

    A sum is accumulated from [+0] in the order of the list. *)
Fixpoint sum_from (acc : num) (terms : list num) : num :=
  match terms with
  | [] => acc
  | x :: terms' => sum_from (add acc x) terms'
  end.

Definition sum_of (terms : list num) : num := sum_from (S754_zero false) terms.

(** The value of metric [m] for [player], an absent one counting as 0. *)
Definition metric_value (player : Player) (m : string) : num :=
  match metrics player !! m with
  | Some v => or0 (Some (of_decimal v))
  | None => S754_zero false
  end.

Definition weighted_sum (player : Player) (template : list (string * Q)) : num :=
  sum_of (map (fun '(m, w) => mul (metric_value player m) (of_decimal w)) template).

Definition squared_distance (catalog : list string) (a b : Player) : num :=
  sum_of (map (fun m => let d := sub (metric_value a m) (metric_value b m) in mul d d)
              catalog).

Definition metric_mean (catalog : list string) (player : Player) : num :=
  div (sum_of (map (metric_value player) catalog)) (of_Z (Z.of_nat (length catalog))).

(** *** Classes of numbers *)

(** [x] is zero or positive, [+Infinity] included. *)
Definition nonneg (x : num) : Prop :=
  match x with
  | S754_zero _ | S754_finite false _ _ | S754_infinity false => True
  | _ => False
  end.

(** [x] is finite. *)
Definition finite (x : num) : Prop :=
  match x with
  | S754_zero _ | S754_finite _ _ _ => True
  | _ => False
  end.

(** [x] is a finite number in [[lo, hi]]. *)
Definition within (lo hi : Q) (x : num) : Prop :=
  match to_Q x with
  | Some u => (lo <= u /\ u <= hi)%Q
  | None => False
  end.


(** A numeral whose numerator and denominator are below [2^53]. *)
Definition numeral (q : Q) : Prop := Z.abs (Qnum q) < 2 ^ 53 /\ Zpos (Qden q) < 2 ^ 53.

(** *** Rounding error

    One operation on a result of size at most [M] is off by at most
    [err M]: a relative [2^-50], which is four units of the last place,
    and [2^-1072], which covers the subnormal numbers. *)
Definition err (M : Q) : Q := (M * (1 # 2 ^ 50) + 2 ^ (-1072))%Q.

End Binary64.



Definition one_decimal : Player :=
  sample 22 "Hal" "MF" 26
    (zip METRICS [81.7; 83.4; 29.5; 93.9; 15.9; 15.7; 99.5; 53.7; 84.5; 10.8; 96.9]%Q).


(** * Properties *)

(** ** Rounding *)

Lemma Math_round_rounds (v : Q) : rounds_to v (Math_round v).
Proof.
  unfold rounds_to, Math_round.
  pose proof (Qfloor_le (v + (1 # 2))) as Hlo.
  pose proof (Qlt_floor (v + (1 # 2))) as Hhi.
  rewrite inject_Z_plus in Hhi. change (inject_Z 1) with 1%Q in Hhi.
  split; lra.
Qed.

Lemma rounds_to_unique (v : Q) (z1 z2 : Z) :
  rounds_to v z1 -> rounds_to v z2 -> z1 = z2.
Proof.
  intros [Hlo1 Hhi1] [Hlo2 Hhi2].
  assert (inject_Z z1 < inject_Z z2 + 1)%Q as H12 by lra.
  assert (inject_Z z2 < inject_Z z1 + 1)%Q as H21 by lra.
  change 1%Q with (inject_Z 1) in H12, H21.
  rewrite <- inject_Z_plus in H12, H21.
  rewrite <- Zlt_Qlt in H12, H21. lia.
Qed.

Lemma Math_round_mono (v w : Q) : (v <= w)%Q -> Math_round v <= Math_round w.
Proof. intros H. apply Qfloor_resp_le. lra. Qed.

Lemma Math_round_Z (z : Z) : Math_round (inject_Z z) = z.
Proof.
  apply (rounds_to_unique (inject_Z z)); [apply Math_round_rounds|].
  unfold rounds_to. split; lra.
Qed.

Lemma Math_round_comp (v w : Q) : (v == w)%Q -> Math_round v = Math_round w.
Proof. intros H. unfold Math_round. apply Qfloor_comp. now rewrite H. Qed.

(** ** Sums *)

Lemma or0_get (p : Player) (m : string) : or0 (get p m) = metric_value p m.
Proof. unfold or0, get, metric_value. now destruct (metrics p !! m). Qed.

Lemma fold_left_Qplus (l : list Q) (acc : Q) :
  (fold_left Qplus l acc == acc + Qsum l)%Q.
Proof.
  revert acc. induction l as [|x l IH]; intros acc; simpl.
  - lra.
  - rewrite IH. lra.
Qed.

Lemma Qsum_bounds (lo hi : Q) (l : list Q) :
  Forall (fun x => lo <= x /\ x <= hi)%Q l ->
  (inject_Z (Z.of_nat (length l)) * lo <= Qsum l
   /\ Qsum l <= inject_Z (Z.of_nat (length l)) * hi)%Q.
Proof.
  induction 1 as [|x l [Hlo Hhi] _ [IHlo IHhi]].
  - cbn [length Qsum foldr]. change (inject_Z (Z.of_nat 0)) with 0%Q. split; lra.
  - cbn [length Qsum foldr]. fold (Qsum l).
    rewrite Nat2Z.inj_succ. unfold Z.succ. rewrite inject_Z_plus.
    change (inject_Z 1) with 1%Q. split; nra.
Qed.

(** ** Role fit *)

Lemma score_weighted_sum (p : Player) (w : list (string * Q)) (acc : Q) :
  (fold_left (fun score '(attr, weight) => score + or0 (get p attr) * weight) w acc
   == acc + weighted_sum p w)%Q.
Proof.
  revert acc. induction w as [|[m wt] w IH]; intros acc; simpl.
  - unfold weighted_sum. simpl. lra.
  - rewrite IH, or0_get. unfold weighted_sum. simpl. lra.
Qed.

Lemma calcRoleFit_eq (p : Player) (w : list (string * Q)) :
  calcRoleFit p w = Math_round (Qmin (weighted_sum p w) 99).
Proof.
  unfold calcRoleFit, Math_min. apply Math_round_comp.
  rewrite score_weighted_sum. now rewrite Qplus_0_l.
Qed.



Lemma calcRoleFit_nonneg_iff (p : Player) (w : list (string * Q)) :
  0 <= calcRoleFit p w <-> (- (1 # 2) <= weighted_sum p w)%Q.
Proof.
  rewrite calcRoleFit_eq.
  pose proof (Math_round_rounds (Qmin (weighted_sum p w) 99)) as [Hlo Hhi].
  set (z := Math_round _) in *.
  destruct (Q.min_spec (weighted_sum p w) 99) as [[Hlt Hmin]|[Hle Hmin]];
    rewrite Hmin in Hlo, Hhi.
  - split; intros H.
    + assert (inject_Z 0 <= inject_Z z)%Q as H1 by (now rewrite <- Zle_Qle).
      change (inject_Z 0) with 0%Q in H1. lra.
    + assert (inject_Z (-1) < inject_Z z)%Q as H1 by (change (inject_Z (-1)) with (-1)%Q; lra).
      rewrite <- Zlt_Qlt in H1. lia.
  - split; intros H; [lra|].
    assert (inject_Z 98 < inject_Z z)%Q as H1 by (change (inject_Z 98) with 98%Q; lra).
    rewrite <- Zlt_Qlt in H1. lia.
Qed.

(** ** Overall rating *)

Lemma computeOverall_eq (catalog : list string) (p : Player) :
  computeOverall catalog p = Math_round (metric_mean catalog p).
Proof.
  unfold computeOverall, metric_mean. apply Math_round_comp.
  rewrite fold_left_Qplus, Qplus_0_l, length_map.
  now rewrite (map_ext _ _ (or0_get p)).
Qed.

Lemma catalog_size_pos (catalog : list string) :
  catalog <> [] -> (0 < inject_Z (Z.of_nat (length catalog)))%Q.
Proof.
  intros Hne. change 0%Q with (inject_Z 0). rewrite <- Zlt_Qlt.
  destruct catalog; [congruence | simpl; lia].
Qed.

Lemma metric_mean_bounds (lo hi : Q) (catalog : list string) (p : Player) :
  catalog <> [] ->
  Forall (fun m => lo <= metric_value p m /\ metric_value p m <= hi)%Q catalog ->
  (lo <= metric_mean catalog p /\ metric_mean catalog p <= hi)%Q.
Proof.
  intros Hne Hall. pose proof (catalog_size_pos catalog Hne) as Hn.
  assert (Forall (fun x => lo <= x /\ x <= hi)%Q (map (metric_value p) catalog)) as Hmap
    by (now apply Forall_map).
  apply Qsum_bounds in Hmap as [Hlo Hhi]. rewrite length_map in Hlo, Hhi.
  unfold metric_mean. split.
  - apply Qle_shift_div_l; [exact Hn|]. lra.
  - apply Qle_shift_div_r; [exact Hn|]. lra.
Qed.

(** ** Sorting *)






(** Facts that hold for every comparator. *)
Section SortAny.
Context {A : Type}.
Variable comparefn : A -> A -> Z.

Lemma sort_insert_elem_of (x y : A) (l : list A) :
  y ∈ sort_insert comparefn x l <-> y = x \/ y ∈ l.
Proof.
  induction l as [|z l IH]; simpl.
  - rewrite list_elem_of_singleton, elem_of_nil. tauto.
  - destruct (comparefn x z <=? 0); rewrite !elem_of_cons; [tauto|].
    rewrite IH. tauto.
Qed.

Lemma sort_insert_perm (x : A) (l : list A) : sort_insert comparefn x l ≡ₚ x :: l.
Proof.
  induction l as [|z l IH]; simpl; [reflexivity|].
  destruct (comparefn x z <=? 0); [reflexivity|].
  rewrite IH. apply Permutation_swap.
Qed.

Lemma Array_sort_perm (l : list A) : Array_sort comparefn l ≡ₚ l.
Proof.
  induction l as [|x l IH]; simpl; [reflexivity|].
  now rewrite sort_insert_perm, IH.
Qed.

(** A consistent comparator: any two elements compare one way or the
    other, and transitively. *)
Hypothesis comparefn_total : forall x y, comparefn x y <= 0 \/ comparefn y x <= 0.
Hypothesis comparefn_trans :
  forall x y z, comparefn x y <= 0 -> comparefn y z <= 0 -> comparefn x z <= 0.

Lemma sort_insert_sorted (x : A) (l : list A) :
  sorted_by comparefn l -> sorted_by comparefn (sort_insert comparefn x l).
Proof.
  unfold sorted_by. induction 1 as [|z l Hl IH Hz]; simpl.
  - repeat constructor.
  - destruct (Z.leb_spec (comparefn x z) 0) as [Hle|Hgt].
    + constructor; [now constructor|].
      constructor; [exact Hle|].
      eapply Forall_impl; [exact Hz|]. simpl. intros w Hw.
      now apply (comparefn_trans x z w).
    + constructor; [exact IH|].
      apply Forall_forall. intros y Hy.
      apply sort_insert_elem_of in Hy as [->|Hy].
      * destruct (comparefn_total x z); [lia | assumption].
      * rewrite Forall_forall in Hz. now apply Hz.
Qed.

Lemma Array_sort_sorted (l : list A) : sorted_by comparefn (Array_sort comparefn l).
Proof.
  induction l as [|x l IH]; simpl; [constructor|].
  now apply sort_insert_sorted.
Qed.
End SortAny.

(** Facts for the comparator of the rankings, [(a, b) => key b - key a]. *)
Section SortByKey.
Context {A : Type}.
Variable key : A -> Z.





End SortByKey.

(** ** Rounding a real *)

Lemma Math_round_R_rounds (v : R) : rounds_to_R v (Math_round_R v).
Proof.
  unfold rounds_to_R, Math_round_R.
  destruct (base_Int_part (v + / 2)) as [Hlo Hhi]. split; lra.
Qed.

Lemma rounds_to_R_unique (v : R) (z1 z2 : Z) :
  rounds_to_R v z1 -> rounds_to_R v z2 -> z1 = z2.
Proof.
  intros [Hlo1 Hhi1] [Hlo2 Hhi2].
  assert (IZR z1 < IZR (z2 + 1))%R as H12 by (rewrite plus_IZR; lra).
  assert (IZR z2 < IZR (z1 + 1))%R as H21 by (rewrite plus_IZR; lra).
  apply lt_IZR in H12, H21. lia.
Qed.


Lemma Q2R_inject_Z (z : Z) : Q2R (inject_Z z) = IZR z.
Proof. unfold Q2R. simpl. rewrite Rinv_1. ring. Qed.

(** ** Squared distance *)

Lemma Qsquare_nonneg (x : Q) : (0 <= x * x)%Q.
Proof. nra. Qed.


Lemma sum_sq_acc (catalog : list string) (a b : Player) (acc : Q) :
  (fold_left (fun sum m => sum + Math_pow2 (or0 (get a m) - or0 (get b m))) catalog acc
   == acc + squared_distance catalog a b)%Q.
Proof.
  revert acc. induction catalog as [|m catalog IH]; intros acc; simpl.
  - unfold squared_distance. simpl. lra.
  - rewrite IH, !or0_get. unfold squared_distance, Math_pow2. simpl. lra.
Qed.

Lemma sum_sq_eq (catalog : list string) (a b : Player) :
  (sum_sq catalog a b == squared_distance catalog a b)%Q.
Proof. unfold sum_sq. rewrite sum_sq_acc. lra. Qed.


Lemma squared_distance_nonneg (catalog : list string) (a b : Player) :
  (0 <= squared_distance catalog a b)%Q.
Proof.
  unfold squared_distance. induction catalog as [|m catalog IH]; simpl; [lra|].
  fold (Qsum (map (fun m => ((metric_value a m - metric_value b m)
                             * (metric_value a m - metric_value b m))%Q) catalog)) in *.
  pose proof (Qsquare_nonneg (metric_value a m - metric_value b m)). lra.
Qed.



Lemma squared_distance_agree (catalog : list string) (a a' b b' : Player) :
  Forall (fun m => metric_value a m == metric_value a' m
                   /\ metric_value b m == metric_value b' m)%Q catalog ->
  (squared_distance catalog a b == squared_distance catalog a' b')%Q.
Proof.
  unfold squared_distance. induction 1 as [|m catalog [Ha Hb] _ IH]; simpl; [lra|].
  rewrite IH, Ha, Hb. ring.
Qed.

(** ** Similarity *)

Lemma Q2R_nonneg (q : Q) : (0 <= q)%Q -> (0 <= Q2R q)%R.
Proof. intros H. apply Qle_Rle in H. now rewrite RMicromega.Q2R_0 in H. Qed.

Lemma Q2R_pos (q : Q) : (0 < q)%Q -> (0 < Q2R q)%R.
Proof. intros H. apply Qlt_Rlt in H. now rewrite RMicromega.Q2R_0 in H. Qed.

Lemma sqrt_ratio_bracket (s M : Q) :
  (0 <= s)%Q -> (0 < M)%Q ->
  let u := (200 * (sqrt (Q2R s) / sqrt (Q2R M)))%R in
  let k := Z.sqrt_up (Qceiling (40000 * s / M)) in
  (IZR k - 1 < u /\ u <= IZR k)%R.
Proof.
  intros Hs HM u k.
  pose proof (Q2R_nonneg s Hs) as HsR. pose proof (Q2R_pos M HM) as HMR.
  assert (0 < sqrt (Q2R M))%R as HrootM by now apply sqrt_lt_R0.
  assert (0 <= u)%R as Hu.
  { unfold u. apply Rmult_le_pos; [lra|].
    apply Rmult_le_pos; [apply sqrt_pos | left; now apply Rinv_0_lt_compat]. }
  assert (u * u = Q2R (40000 * s / M))%R as Hsq.
  { unfold Qdiv. rewrite !Q2R_mult, Q2R_inv by lra.
    replace (Q2R 40000) with 40000%R by (unfold Q2R; simpl; lra).
    unfold u. rewrite <- (sqrt_def (Q2R s) HsR) at 3.
    rewrite <- (sqrt_def (Q2R M)) at 3 by lra. field. lra. }
  set (c := (40000 * s / M)%Q) in *.
  assert (0 <= Q2R c)%R as Hc by (rewrite <- Hsq; nra).
  pose proof (Qle_ceiling c) as Hup. apply Qle_Rle in Hup. rewrite Q2R_inject_Z in Hup.
  pose proof (Qceiling_lt c) as Hdn. apply Qlt_Rlt in Hdn.
  rewrite Q2R_inject_Z, minus_IZR in Hdn.
  pose proof (Z.sqrt_up_nonneg (Qceiling c)) as Hk0. fold k in Hk0.
  apply IZR_le in Hk0 as Hk0R.
  destruct (Z.lt_ge_cases 0 (Qceiling c)) as [Hpos|Hnpos].
  - pose proof (Z.sqrt_up_spec _ Hpos) as [Hlo Hhi]. fold k in Hlo, Hhi.
    unfold Z.pred in Hlo.
    assert (1 <= k) as Hk1 by nia.
    assert ((k + -1) * (k + -1) <= Qceiling c - 1) as Hlo' by lia.
    apply IZR_le in Hhi, Hlo', Hk1.
    rewrite mult_IZR in Hhi. rewrite mult_IZR, plus_IZR, minus_IZR in Hlo'.
    split; nra.
  - assert (k = 0) as -> by (now apply Z.sqrt_up_eqn0).
    apply IZR_le in Hnpos. split; nra.
Qed.

Lemma similarity_round_exec (s M : Q) :
  (0 <= s)%Q -> (0 < M)%Q ->
  Math_round_R ((1 - sqrt (Q2R s) / sqrt (Q2R M)) * 100)%R
  = (201 - Z.sqrt_up (Qceiling (40000 * s / M))) / 2.
Proof.
  intros Hs HM. destruct (sqrt_ratio_bracket s M Hs HM) as [Hlo Hhi].
  set (k := Z.sqrt_up _) in *. set (t := (sqrt (Q2R s) / sqrt (Q2R M))%R) in *.
  apply (rounds_to_R_unique ((1 - t) * 100)%R); [apply Math_round_R_rounds|].
  set (e := (201 - k) / 2).
  assert (2 * e <= 201 - k <= 2 * e + 1) as [He1 He2].
  { pose proof (Z.div_mod (201 - k) 2 ltac:(lia)) as Hdiv.
    pose proof (Z.mod_pos_bound (201 - k) 2 ltac:(lia)) as Hmod.
    fold e in Hdiv. lia. }
  apply IZR_le in He1, He2.
  rewrite mult_IZR, minus_IZR in He1. rewrite minus_IZR, plus_IZR, mult_IZR in He2.
  unfold rounds_to_R. split; lra.
Qed.

Lemma catalog_max_pos (catalog : list string) :
  catalog <> [] -> (0 < inject_Z (Z.of_nat (length catalog)) * 100 * 100)%Q.
Proof. intros Hne. pose proof (catalog_size_pos catalog Hne). lra. Qed.

Lemma sum_sq_nonneg (catalog : list string) (a b : Player) :
  (0 <= sum_sq catalog a b)%Q.
Proof. rewrite sum_sq_eq. apply squared_distance_nonneg. Qed.

Lemma euclideanSimilarity_exec_correct (catalog : list string) (a b : Player) :
  catalog <> [] ->
  euclideanSimilarity catalog a b = euclideanSimilarity_exec catalog a b.
Proof.
  intros Hne. unfold euclideanSimilarity, euclideanSimilarity_exec.
  apply similarity_round_exec; [apply sum_sq_nonneg | now apply catalog_max_pos].
Qed.



Lemma euclideanSimilarity_congr (catalog : list string) (a b a' b' : Player) :
  (squared_distance catalog a b == squared_distance catalog a' b')%Q ->
  euclideanSimilarity catalog a b = euclideanSimilarity catalog a' b'.
Proof.
  intros H. unfold euclideanSimilarity.
  rewrite (Qeq_eqR _ _ (sum_sq_eq catalog a b)), (Qeq_eqR _ _ (sum_sq_eq catalog a' b')).
  now rewrite (Qeq_eqR _ _ H).
Qed.




(** ** Rankings *)



Lemma elem_of_List_filter {A : Type} (f : A -> bool) (x : A) (l : list A) :
  x ∈ List.filter f l <-> x ∈ l /\ f x = true.
Proof. rewrite !list_elem_of_In. apply filter_In. Qed.













(** ** The similar-player shortlist *)

Lemma List_filter_none {A : Type} (f : A -> bool) (l : list A) :
  (forall x, x ∈ l -> f x = false) -> List.filter f l = [].
Proof.
  induction l as [|x l IH]; intros Hall; simpl; [reflexivity|].
  rewrite (Hall x) by apply list_elem_of_here.
  apply IH. intros y Hy. apply Hall. now apply list_elem_of_further.
Qed.



Lemma renderSimilar_unfold (PLAYERS : list Player) (controls : SimilarControls)
    (ref : Player) :
  PLAYERS !! similar_select controls = Some ref ->
  renderSimilar PLAYERS controls
  = Normal (Some
      (slice0 5
         (Array_sort (by_key_desc sim)
            (map (fun p => {| sim_player := p; sim := euclideanSimilarity METRICS ref p |})
               (List.filter
                  (fun p => number_le (age p) (parseInt (similar_age_filter controls)))
                  (if negb (String.eqb (similar_pos_filter controls) "all")
                   then List.filter
                          (fun p => String.eqb (position p) (similar_pos_filter controls))
                          (List.filter
                             (fun p => negb (ident_eqb (player_id p) (player_id ref)))
                             PLAYERS)
                   else List.filter
                          (fun p => negb (ident_eqb (player_id p) (player_id ref)))
                          PLAYERS)))))).
Proof. intros Href. unfold renderSimilar. now rewrite Href. Qed.

(** ** Worked examples *)

Example Math_round_ties_up :
  Math_round (5 # 2) = 3 /\ Math_round (- (5 # 2)) = -2 /\ Math_round (- (801 # 10)) = -80.
Proof. repeat split. Qed.

Example parseInt_examples :
  parseInt "30" = Some 30 /\ parseInt " 42px" = Some 42 /\ parseInt "-0x1F" = Some (-31)
  /\ parseInt "" = None /\ parseInt "abc" = None /\ parseInt "0x" = None.
Proof. repeat split. Qed.

Example Array_sort_example :
  Array_sort (by_key_desc snd) [("a", 70); ("b", 65); ("c", 70); ("d", 80)]%string
  = [("d", 80); ("a", 70); ("c", 70); ("b", 65)]%string.
Proof. reflexivity. Qed.

(** The scenarios of the specification: a catalog of two metrics with
    players at (80, 20) and (20, 80) gives similarity 40; the template
    (0.5, 0.3) on a player at (100, 100) gives 80 and the template
    (0.9, 0.9) is capped at 99; an age ceiling below every candidate gives
    the empty shortlist. *)
Example scenario_similarity :
  euclideanSimilarity ["A"; "B"]%string player_x player_y = 40.
Proof. rewrite euclideanSimilarity_exec_correct by discriminate. reflexivity. Qed.

Example scenario_role_fit :
  calcRoleFit player_p [("A", 0.5); ("B", 0.3)]%string%Q = 80
  /\ calcRoleFit player_p [("A", 0.9); ("B", 0.9)]%string%Q = 99.
Proof. split; reflexivity. Qed.

Example scenario_age_filter :
  renderSimilar squad (controls_with_age "10") = Normal (Some []).
Proof. reflexivity. Qed.

Example scenario_shortlist :
  renderSimilar squad (controls_with_age "30")
  = Normal (Some [ {| sim_player := bo; sim := 58 |} ]).
Proof.
  rewrite (renderSimilar_unfold squad (controls_with_age "30") ada eq_refl).
  replace (List.filter _ _) with [bo] by reflexivity.
  cbn [map]. rewrite euclideanSimilarity_exec_correct by discriminate. reflexivity.
Qed.

Example scenario_overall :
  computeOverall METRICS ada = 27 /\ computeOverall ["A"; "B"]%string player_x = 50.
Proof. split; reflexivity. Qed.

(** * Binary64 arithmetic

    How far a binary64 result is from the exact one.  The rounding of
    [SpecFloat] is analysed once, in [binary_round_aux_spec]; from it each
    operation on finite numbers gets a lemma [to_Q (op x y) = Some u] with
    [u] within [Binary64.err M] of the exact result, and the errors are
    added up along the three scoring functions. *)

(** ** Binary64: powers of two *)

Lemma pow2_pos (e : Z) : (0 < 2 ^ e)%Q.
Proof. apply Qpower_0_lt. reflexivity. Qed.

Lemma pow2_add (a b : Z) : (2 ^ (a + b) == 2 ^ a * 2 ^ b)%Q.
Proof. apply Qpower_plus. discriminate. Qed.

Lemma pow2_le (a b : Z) : a <= b -> (2 ^ a <= 2 ^ b)%Q.
Proof. intros H. apply Qpower_le_compat_l; [exact H | discriminate]. Qed.

Lemma pow2_Z (k : Z) : 0 <= k -> (inject_Z (2 ^ k) == 2 ^ k)%Q.
Proof. intros H. rewrite Zpower_Qpower by exact H. reflexivity. Qed.

Lemma pow2_max (a b : Z) : (2 ^ Z.max a b <= 2 ^ a + 2 ^ b)%Q.
Proof.
  pose proof (pow2_pos a). pose proof (pow2_pos b).
  destruct (Z.max_spec a b) as [[_ ->]|[_ ->]]; lra.
Qed.

(** ** Binary64: the size of a mantissa *)

Lemma digits2_pos_size (m : positive) : digits2_pos m = Pos.size m.
Proof. induction m; simpl; congruence. Qed.


Lemma digits2_pos_lower (m : positive) : 2 ^ (Zpos (digits2_pos m) - 1) <= Zpos m.
Proof.
  rewrite digits2_pos_size. pose proof (Pos.size_le m) as H.
  assert (2 ^ Zpos (Pos.size m) <= 2 * Zpos m) as H'.
  { rewrite <- Pos2Z.inj_pow. lia. }
  replace (Zpos (Pos.size m)) with (Z.succ (Zpos (Pos.size m) - 1)) in H' by lia.
  rewrite Z.pow_succ_r in H' by lia. lia.
Qed.

(** The value [m * 2^e] of a mantissa with [d] digits lies in
    [[2^(d+e-1), 2^(d+e))]. *)
Lemma mantissa_lower (m : positive) (e : Z) :
  (2 ^ (Zpos (digits2_pos m) + e - 1) <= inject_Z (Zpos m) * 2 ^ e)%Q.
Proof.
  replace (Zpos (digits2_pos m) + e - 1) with ((Zpos (digits2_pos m) - 1) + e) by lia.
  rewrite pow2_add. apply Qmult_le_compat_r; [|apply Qlt_le_weak, pow2_pos].
  rewrite <- pow2_Z by lia. rewrite <- Zle_Qle. apply digits2_pos_lower.
Qed.


(** ** Binary64: shifting a mantissa right *)

Lemma shr_1_m (mrs : shr_record) :
  0 <= shr_m mrs -> shr_m (shr_1 mrs) = shr_m mrs / 2.
Proof.
  destruct mrs as [m r s]. simpl. intros Hm.
  destruct m as [|[p|p|]|p]; try lia; try reflexivity;
    rewrite <- Z.div2_div; reflexivity.
Qed.

Lemma Zpow2_xO (p : positive) : 2 ^ Zpos p~0 = 2 ^ Zpos p * 2 ^ Zpos p.
Proof. rewrite <- Z.pow_add_r by lia. f_equal. lia. Qed.

Lemma Zpow2_xI (p : positive) : 2 ^ Zpos p~1 = 2 * (2 ^ Zpos p * 2 ^ Zpos p).
Proof.
  rewrite <- Z.pow_add_r, <- Z.pow_succ_r by lia. f_equal. lia.
Qed.

Lemma iter_shr_1_m (p : positive) (mrs : shr_record) :
  0 <= shr_m mrs ->
  shr_m (SpecFloat.iter_pos shr_1 p mrs) = shr_m mrs / 2 ^ Zpos p.
Proof.
  revert mrs. induction p as [p IH|p IH|]; intros mrs Hm; simpl SpecFloat.iter_pos.
  - assert (0 < 2 ^ Zpos p) as Hp by (apply Z.pow_pos_nonneg; lia).
    assert (0 <= shr_m (shr_1 mrs)) as H1.
    { rewrite shr_1_m by exact Hm. apply Z.div_pos; lia. }
    assert (0 <= shr_m (SpecFloat.iter_pos shr_1 p (shr_1 mrs))) as H2.
    { rewrite IH by exact H1. apply Z.div_pos; lia. }
    rewrite IH by exact H2. rewrite IH by exact H1. rewrite shr_1_m by exact Hm.
    rewrite Zpow2_xI. rewrite <- !Z.div_div by lia. reflexivity.
  - assert (0 < 2 ^ Zpos p) as Hp by (apply Z.pow_pos_nonneg; lia).
    assert (0 <= shr_m (SpecFloat.iter_pos shr_1 p mrs)) as H2.
    { rewrite IH by exact Hm. apply Z.div_pos; lia. }
    rewrite IH by exact H2. rewrite IH by exact Hm.
    rewrite Zpow2_xO. rewrite <- Z.div_div by lia. reflexivity.
  - rewrite shr_1_m by exact Hm. reflexivity.
Qed.

Lemma shr_record_of_loc_m (m : Z) (l : location) : shr_m (shr_record_of_loc m l) = m.
Proof. destruct l as [|[| |]]; reflexivity. Qed.

Lemma loc_of_shr_record_of_loc (m : Z) (l : location) :
  loc_of_shr_record (shr_record_of_loc m l) = l.
Proof. destruct l as [|[| |]]; reflexivity. Qed.

(** What [shr_fexp] leaves: the mantissa cut down to the exponent the
    format asks for, less than one unit of that exponent below the value
    given. *)
Lemma shr_fexp_spec (m e : Z) (l : location) (mrs : shr_record) (e1 : Z) :
  0 <= m ->
  shr_fexp Binary64.prec Binary64.emax m e l = (mrs, e1) ->
  0 <= shr_m mrs
  /\ e1 = Z.max e (fexp Binary64.prec Binary64.emax (Zdigits2 m + e))
  /\ (inject_Z (shr_m mrs) * 2 ^ e1 <= inject_Z m * 2 ^ e)%Q
  /\ (inject_Z m * 2 ^ e < (inject_Z (shr_m mrs) + 1) * 2 ^ e1)%Q
  /\ (fexp Binary64.prec Binary64.emax (Zdigits2 m + e) <= e ->
      mrs = shr_record_of_loc m l).
Proof.
  intros Hm. unfold shr_fexp, shr. pose proof (pow2_pos e) as He.
  destruct (fexp Binary64.prec Binary64.emax (Zdigits2 m + e) - e) as [|n|n] eqn:Hn;
    intros [= <- <-].
  - rewrite shr_record_of_loc_m. repeat split; [exact Hm | lia | apply Qle_refl | lra].
  - rewrite iter_shr_1_m by now rewrite shr_record_of_loc_m.
    rewrite shr_record_of_loc_m.
    assert (0 < 2 ^ Zpos n) as Hp by (apply Z.pow_pos_nonneg; lia).
    pose proof (Z.mul_div_le m (2 ^ Zpos n) Hp) as Hle.
    pose proof (Z.mul_succ_div_gt m (2 ^ Zpos n) Hp) as Hgt.
    rewrite Zle_Qle, inject_Z_mult in Hle.
    rewrite Zlt_Qlt, inject_Z_mult in Hgt. unfold Z.succ in Hgt.
    rewrite inject_Z_plus in Hgt. change (inject_Z 1) with 1%Q in Hgt.
    repeat split.
    + apply Z.div_pos; lia.
    + lia.
    + rewrite pow2_add, <- (pow2_Z (Zpos n)) by lia.
      set (q := inject_Z (m / 2 ^ Zpos n)) in *. set (P := inject_Z (2 ^ Zpos n)) in *.
      set (E := (2 ^ e)%Q) in *. nra.
    + rewrite pow2_add, <- (pow2_Z (Zpos n)) by lia.
      set (q := inject_Z (m / 2 ^ Zpos n)) in *. set (P := inject_Z (2 ^ Zpos n)) in *.
      set (E := (2 ^ e)%Q) in *. nra.
    + lia.
  - rewrite shr_record_of_loc_m. repeat split; [exact Hm | lia | apply Qle_refl | lra].
Qed.

Lemma round_nearest_even_bounds (m : Z) (l : location) :
  m <= round_nearest_even m l <= m + 1.
Proof.
  destruct l as [|[| |]]; simpl; try lia. destruct (Z.even m); lia.
Qed.

(** The smallest positive number of the format, and the spacing of the
    numbers relative to their size. *)
Lemma fexp_pow2 (k : Z) :
  (2 ^ fexp Binary64.prec Binary64.emax k <= 2 ^ (k - 1) * (1 # 2 ^ 52) + 2 ^ (-1074))%Q.
Proof.
  unfold fexp, emin. change (3 - Binary64.emax - Binary64.prec) with (-1074).
  change (k - Binary64.prec) with (k - 53).
  eapply Qle_trans; [apply pow2_max|].
  replace (k - 53) with ((k - 1) + (-52)) by lia. rewrite pow2_add.
  change (2 ^ (-52))%Q with (/ inject_Z (2 ^ 52))%Q.
  assert (/ inject_Z (2 ^ 52) == 1 # 2 ^ 52)%Q as -> by reflexivity.
  apply Qle_refl.
Qed.

Ltac name_constants :=
  let H1 := fresh "Hc" in let H2 := fresh "Hc" in let H3 := fresh "Heta" in
  assert (0 < (1 # 2 ^ 52))%Q as H1 by reflexivity;
  assert ((1 # 2 ^ 52) < 1)%Q as H2 by reflexivity;
  pose proof (pow2_pos (-1074)) as H3;
  set (c52 := (1 # 2 ^ 52)%Q) in *; clearbody c52;
  set (eta := (2 ^ (-1074))%Q) in *; clearbody eta.

(** ** Binary64: rounding a value

    [binary_round_aux] on a mantissa [m >= 0] at exponent [e] gives a
    mantissa [m3] at an exponent [e3]; the result is the number they make,
    an infinity if the exponent is too large.  With [u] one unit of the
    exponent the format asks for, [m3 * 2^e3] is at most [u] above
    [m * 2^e], and below it by at most [u] and a [2^-52]th; it is
    [m * 2^e] itself when that fits the format and nothing was cut off
    before. *)
Lemma binary_round_aux_spec (s : bool) (m e : Z) (l : location) :
  0 <= m ->
  exists m3 e3 : Z,
    0 <= m3
    /\ binary_round_aux Binary64.prec Binary64.emax s m e l =
         match m3 with
         | 0 => S754_zero s
         | Zpos p =>
             if e3 <=? Binary64.emax - Binary64.prec
             then S754_finite s p e3 else S754_infinity s
         | Zneg _ => S754_nan
         end
    /\ (let u := 2 ^ Z.max e (fexp Binary64.prec Binary64.emax (Zdigits2 m + e)) in
        inject_Z m3 * 2 ^ e3 <= inject_Z m * 2 ^ e + u
        /\ inject_Z m * 2 ^ e - u - (inject_Z m * 2 ^ e + u) * (1 # 2 ^ 52) - 2 ^ (-1074)
           <= inject_Z m3 * 2 ^ e3)%Q
    /\ (fexp Binary64.prec Binary64.emax (Zdigits2 m + e) <= e ->
        (l = loc_Exact -> m3 = m /\ e3 = e)
        /\ (inject_Z m * 2 ^ e - (inject_Z m * 2 ^ e + 2 ^ e) * (1 # 2 ^ 52) - 2 ^ (-1074)
            <= inject_Z m3 * 2 ^ e3)%Q).
Proof.
  intros Hm. unfold binary_round_aux.
  destruct (shr_fexp Binary64.prec Binary64.emax m e l) as [mrs1 e1] eqn:H1.
  destruct (shr_fexp_spec m e l mrs1 e1 Hm H1) as (Hm1 & He1 & Hv1 & Hw1 & Hx1).
  pose proof (round_nearest_even_bounds (shr_m mrs1) (loc_of_shr_record mrs1)) as Hr.
  set (m2 := round_nearest_even (shr_m mrs1) (loc_of_shr_record mrs1)) in *.
  assert (0 <= m2) as Hm2 by lia.
  destruct (shr_fexp Binary64.prec Binary64.emax m2 e1 loc_Exact) as [mrs2 e2] eqn:H2.
  destruct (shr_fexp_spec m2 e1 loc_Exact mrs2 e2 Hm2 H2) as (Hm3 & He2 & Hv2 & Hw2 & Hx2).
  exists (shr_m mrs2), e2. split; [exact Hm3|]. split; [reflexivity|].
  assert (inject_Z m2 <= inject_Z (shr_m mrs1) + 1)%Q as Hq.
  { change 1%Q with (inject_Z 1). rewrite <- inject_Z_plus, <- Zle_Qle. lia. }
  assert (inject_Z (shr_m mrs1) <= inject_Z m2)%Q as Hq' by (rewrite <- Zle_Qle; lia).
  assert (0 <= inject_Z m)%Q as HmQ by (change 0%Q with (inject_Z 0); now rewrite <- Zle_Qle).
  pose proof (pow2_pos e1) as HE1. pose proof (pow2_pos e) as HE.
  (* the loss of the second cut *)
  assert (inject_Z m2 * 2 ^ e1 - inject_Z m2 * 2 ^ e1 * (1 # 2 ^ 52) - 2 ^ (-1074)
          <= inject_Z (shr_m mrs2) * 2 ^ e2)%Q as Hloss.
  { assert (0 <= inject_Z m2 * 2 ^ e1)%Q as Hnn.
    { assert (0 <= inject_Z m2)%Q
        by (change 0%Q with (inject_Z 0); now rewrite <- Zle_Qle).
      apply Qmult_le_0_compat; [assumption | lra]. }
    destruct (Z_le_gt_dec (fexp Binary64.prec Binary64.emax (Zdigits2 m2 + e1)) e1) as [Hn|Hn].
    - specialize (Hx2 Hn). subst mrs2. simpl shr_m. assert (e2 = e1) as -> by lia.
      set (X := (inject_Z m2 * 2 ^ e1)%Q) in *. clearbody X. name_constants. nra.
    - assert (e2 = fexp Binary64.prec Binary64.emax (Zdigits2 m2 + e1)) as He2' by lia.
      destruct m2 as [|p2|p2]; [| |lia].
      + assert (0 <= inject_Z (shr_m mrs2) * 2 ^ e2)%Q.
        { assert (0 <= inject_Z (shr_m mrs2))%Q
            by (change 0%Q with (inject_Z 0); now rewrite <- Zle_Qle).
          apply Qmult_le_0_compat; [assumption | apply Qlt_le_weak, pow2_pos]. }
        change (inject_Z 0) with 0%Q. name_constants. lra.
      + pose proof (fexp_pow2 (Zdigits2 (Zpos p2) + e1)) as Hf.
        rewrite <- He2' in Hf. simpl Zdigits2 in Hf.
        pose proof (mantissa_lower p2 e1) as Hl.
        set (X := (inject_Z (Zpos p2) * 2 ^ e1)%Q) in *.
        set (R := (inject_Z (shr_m mrs2) * 2 ^ e2)%Q) in *.
        assert (X < R + 2 ^ e2)%Q as Hw2' by (unfold R; nra).
        clearbody X R.
        set (E2 := (2 ^ e2)%Q) in *. clearbody E2.
        set (L := (2 ^ (Zpos (digits2_pos p2) + e1 - 1))%Q) in *. clearbody L.
        name_constants. nra. }
  set (V := (inject_Z m * 2 ^ e)%Q) in *.
  assert (0 <= V)%Q as HV
    by (apply Qmult_le_0_compat; [assumption | lra]).
  set (X1 := (inject_Z (shr_m mrs1) * 2 ^ e1)%Q) in *.
  set (X2 := (inject_Z m2 * 2 ^ e1)%Q) in *.
  set (R := (inject_Z (shr_m mrs2) * 2 ^ e2)%Q) in *.
  assert (X1 <= X2)%Q as H12
    by (apply Qmult_le_compat_r; [assumption | lra]).
  assert (X2 <= X1 + 2 ^ e1)%Q as H21.
  { unfold X1, X2. set (E := (2 ^ e1)%Q) in *. clearbody E. nra. }
  assert (V < X1 + 2 ^ e1)%Q as HVX by (unfold X1; lra).
  rewrite <- He1. split; [split|].
  - clearbody V X1 X2 R. lra.
  - clearbody V X1 X2 R. set (E := (2 ^ e1)%Q) in *. clearbody E. name_constants. nra.
  - intros Hfe. specialize (Hx1 Hfe). assert (e1 = e) as -> by lia. split.
    + intros ->. subst mrs1. simpl in m2. subst m2.
      specialize (Hx2 Hfe). subst mrs2. simpl. split; [reflexivity | lia].
    + subst mrs1. rewrite shr_record_of_loc_m in *.
      assert (V <= X2)%Q
        by (unfold V, X2; apply Qmult_le_compat_r; [exact Hq' | lra]).
      clearbody V X1 X2 R. set (E := (2 ^ e)%Q) in *. clearbody E. name_constants. nra.
Qed.

(** ** Binary64: the value of a result *)

(** The number a rounded mantissa makes is finite when its value is below
    [2^972], and has that value. *)
Lemma rounded_value (s : bool) (m3 e3 : Z) (B : Q) :
  0 <= m3 ->
  (inject_Z m3 * 2 ^ e3 <= B)%Q ->
  (B < 2 ^ 972)%Q ->
  exists u : Q,
    Binary64.to_Q
      match m3 with
      | 0 => S754_zero s
      | Zpos p =>
          if e3 <=? Binary64.emax - Binary64.prec
          then S754_finite s p e3 else S754_infinity s
      | Zneg _ => S754_nan
      end = Some u
    /\ (u == if s then - (inject_Z m3 * 2 ^ e3) else inject_Z m3 * 2 ^ e3)%Q.
Proof.
  intros Hm HB Hlt. destruct m3 as [|p|p]; [| |lia].
  - exists 0%Q. split; [reflexivity|]. destruct s; ring.
  - destruct (Z.leb_spec e3 (Binary64.emax - Binary64.prec)) as [He|He].
    + eexists. split; [reflexivity|]. destruct s; simpl cond_Zopp.
      * change (Zneg p) with (- Zpos p). rewrite inject_Z_opp. ring.
      * reflexivity.
    + exfalso. change (Binary64.emax - Binary64.prec) with 971 in He.
      assert (2 ^ 972 <= 2 ^ e3)%Q as H1 by (apply pow2_le; lia).
      assert (1 <= inject_Z (Zpos p))%Q as H2
        by (change 1%Q with (inject_Z 1); rewrite <- Zle_Qle; lia).
      pose proof (pow2_pos e3).
      set (E := (2 ^ e3)%Q) in *. clearbody E.
      set (T := (2 ^ 972)%Q) in *. clearbody T. nra.
Qed.

(** Rounding an exact value [V = m * 2^e]: the result is within
    [V * 2^-50 + 2^-1072] of [V]. *)
Lemma binary_round_aux_exact (s : bool) (m : positive) (e : Z) :
  let V := (inject_Z (Zpos m) * 2 ^ e)%Q in
  (V <= 2 ^ 970)%Q ->
  exists u : Q,
    Binary64.to_Q (binary_round_aux Binary64.prec Binary64.emax s (Zpos m) e loc_Exact)
      = Some u
    /\ (V - (V * (1 # 2 ^ 50) + 2 ^ (-1072)) <= (if s then - u else u)
        /\ (if s then - u else u) <= V + (V * (1 # 2 ^ 50) + 2 ^ (-1072)))%Q.
Proof.
  intros V HV.
  destruct (binary_round_aux_spec s (Zpos m) e loc_Exact) as (m3 & e3 & Hm3 & -> & [Hup Hlo] & Hex);
    [lia|].
  fold V in Hup, Hlo, Hex.
  assert (0 < V)%Q as HVpos.
  { unfold V. apply Qmult_lt_0_compat; [reflexivity | apply pow2_pos]. }
  assert (2 ^ (-1074) * 4 == 2 ^ (-1072))%Q as Heta4 by reflexivity.
  assert ((1 # 2 ^ 52) * 4 == 1 # 2 ^ 50)%Q as Hc4 by reflexivity.
  assert (2 ^ 970 * 4 == 2 ^ 972)%Q as Hbig by reflexivity.
  assert (2 ^ (-1072) <= 1)%Q as Hsmall by (vm_compute; discriminate).
  assert ((1 # 2 ^ 50) <= 1)%Q as Hc1 by (vm_compute; discriminate).
  assert (V - (V * (1 # 2 ^ 50) + 2 ^ (-1072)) <= inject_Z m3 * 2 ^ e3
          /\ inject_Z m3 * 2 ^ e3 <= V + (V * (1 # 2 ^ 50) + 2 ^ (-1072)))%Q as [H1 H2].
  { destruct (Z_le_gt_dec (fexp Binary64.prec Binary64.emax (Zdigits2 (Zpos m) + e)) e)
      as [Hn|Hn].
    - destruct (proj1 (Hex Hn) eq_refl) as [-> ->]. fold V.
      set (c50 := (1 # 2 ^ 50)%Q) in *. set (eta' := (2 ^ (-1072))%Q) in *.
      assert (0 < eta')%Q by apply pow2_pos. assert (0 < c50)%Q by reflexivity.
      clearbody V c50 eta'. split; nra.
    - rewrite Z.max_r in Hup, Hlo by lia.
      pose proof (fexp_pow2 (Zdigits2 (Zpos m) + e)) as Hf.
      change (Zdigits2 (Zpos m)) with (Zpos (digits2_pos m)) in Hf at 2.
      pose proof (mantissa_lower m e) as Hl. fold V in Hl.
      set (U := (2 ^ fexp Binary64.prec Binary64.emax (Zdigits2 (Zpos m) + e))%Q) in *.
      set (L := (2 ^ (Zpos (digits2_pos m) + e - 1))%Q) in *.
      set (R := (inject_Z m3 * 2 ^ e3)%Q) in *.
      set (c50 := (1 # 2 ^ 50)%Q) in *. set (eta' := (2 ^ (-1072))%Q) in *.
      assert (0 < U)%Q by apply pow2_pos.
      clearbody V U L R c50 eta'. name_constants.
      assert (L * c52 <= V * c52)%Q by nra.
      assert (U * c52 <= U)%Q by nra.
      assert (V * c50 == 4 * (V * c52))%Q by (rewrite <- Hc4; ring).
      split; lra. }
  destruct (rounded_value s m3 e3 (V + (V * (1 # 2 ^ 50) + 2 ^ (-1072)))%Q Hm3 H2)
    as (u & Hu & Hval).
  { set (c50 := (1 # 2 ^ 50)%Q) in *. set (eta' := (2 ^ (-1072))%Q) in *.
    set (T := (2 ^ 970)%Q) in *. set (T' := (2 ^ 972)%Q) in *.
    assert (0 < c50)%Q by reflexivity.
    assert (1 <= T)%Q by (vm_compute; discriminate).
    clearbody V c50 eta' T T'. nra. }
  exists u. split; [exact Hu|].
  destruct s; rewrite Hval; split; lra.
Qed.

(** ** Binary64: aligning and normalising *)

Lemma Pos_iter_xO (m d : positive) : Zpos (Pos.iter xO m d) = Zpos m * 2 ^ Zpos d.
Proof.
  induction d as [|d IH] using Pos.peano_ind.
  - simpl. lia.
  - rewrite Pos.iter_succ, Pos2Z.inj_xO, IH, Pos2Z.inj_succ, Z.pow_succ_r by lia. ring.
Qed.




Lemma err_pos (M : Q) : (0 <= M)%Q -> (0 < Binary64.err M)%Q.
Proof.
  intros HM. unfold Binary64.err. pose proof (pow2_pos (-1072)).
  assert (0 < (1 # 2 ^ 50))%Q by reflexivity.
  set (c := (1 # 2 ^ 50)%Q) in *. set (h := (2 ^ (-1072))%Q) in *.
  clearbody c h. nra.
Qed.

Lemma err_mono (a b : Q) : (a <= b)%Q -> (Binary64.err a <= Binary64.err b)%Q.
Proof.
  intros H. unfold Binary64.err. assert (0 < (1 # 2 ^ 50))%Q by reflexivity.
  set (c := (1 # 2 ^ 50)%Q) in *. clearbody c. nra.
Qed.

#[global] Instance err_proper : Proper (Qeq ==> Qeq) Binary64.err.
Proof. intros a b H. unfold Binary64.err. now rewrite H. Qed.


(** ** Binary64: the operations on finite numbers

    Each operation gives a finite number within [Binary64.err M] of the
    exact result, [M] bounding the size of that result. *)

Lemma cond_Zopp_value (s : bool) (m : positive) (e : Z) :
  (inject_Z (cond_Zopp s (Zpos m)) * 2 ^ e
   == if s then - (inject_Z (Zpos m) * 2 ^ e) else inject_Z (Zpos m) * 2 ^ e)%Q.
Proof.
  destruct s; simpl cond_Zopp; [|reflexivity].
  change (Zneg m) with (- Zpos m). rewrite inject_Z_opp. ring.
Qed.




Lemma mul_value (x y : Binary64.num) (ux uy M : Q) :
  Binary64.to_Q x = Some ux -> Binary64.to_Q y = Some uy ->
  (- M <= ux * uy)%Q -> (ux * uy <= M)%Q -> (M <= 2 ^ 970)%Q ->
  exists u : Q,
    Binary64.to_Q (Binary64.mul x y) = Some u
    /\ (ux * uy - Binary64.err M <= u /\ u <= ux * uy + Binary64.err M)%Q.
Proof.
  intros Hx Hy Hlo Hhi HM.
  assert (0 <= M)%Q as HM0 by lra. pose proof (err_pos M HM0) as Herr.
  destruct x as [sx|sx| |sx mx ex]; try discriminate;
    destruct y as [sy|sy| |sy my ey]; try discriminate;
    simpl in Hx, Hy; injection Hx as <-; injection Hy as <-.
  - exists 0%Q. split; [reflexivity | lra].
  - exists 0%Q. split; [reflexivity | lra].
  - exists 0%Q. split; [reflexivity|].
    assert (inject_Z (cond_Zopp sx (Zpos mx)) * 2 ^ ex * 0 == 0)%Q as -> by ring. lra.
  - unfold Binary64.mul, SFmul.
    assert (inject_Z (Zpos (mx * my)) * 2 ^ (ex + ey)
            == (inject_Z (Zpos mx) * 2 ^ ex) * (inject_Z (Zpos my) * 2 ^ ey))%Q as HV.
    { rewrite Pos2Z.inj_mul, inject_Z_mult, pow2_add. ring. }
    pose proof (cond_Zopp_value sx mx ex) as Hax.
    pose proof (cond_Zopp_value sy my ey) as Hay.
    set (vx := (inject_Z (cond_Zopp sx (Zpos mx)) * 2 ^ ex)%Q) in *.
    set (vy := (inject_Z (cond_Zopp sy (Zpos my)) * 2 ^ ey)%Q) in *.
    set (a := (inject_Z (Zpos mx) * 2 ^ ex)%Q) in *.
    set (b := (inject_Z (Zpos my) * 2 ^ ey)%Q) in *.
    assert (vx * vy == if xorb sx sy then - (a * b) else a * b)%Q as Hprod.
    { rewrite Hax, Hay. destruct sx, sy; simpl; ring. }
    assert (a * b <= M)%Q as Hab by (destruct sx, sy; simpl in Hprod; lra).
    destruct (binary_round_aux_exact (xorb sx sy) (mx * my) (ex + ey))
      as (u & Hu & H1 & H2).
    { cbv zeta. rewrite HV. lra. }
    cbv zeta in H1, H2. rewrite HV in H1, H2.
    exists u. split; [exact Hu|].
    pose proof (err_mono _ _ Hab).
    change (Binary64.err (a * b)) with (a * b * (1 # 2 ^ 50) + 2 ^ (-1072))%Q in *.
    destruct (xorb sx sy); lra.
Qed.


(** ** Binary64: integers *)

Lemma digits2_pos_iter_xO (m d : positive) :
  digits2_pos (Pos.iter xO m d) = (digits2_pos m + d)%positive.
Proof.
  induction d as [|d IH] using Pos.peano_ind.
  - simpl. lia.
  - rewrite Pos.iter_succ. simpl. rewrite IH. lia.
Qed.

(** An integer below [2^53] is a number of the format: [of_Z] gives it
    exactly. *)
Lemma of_Z_exact (s : bool) (p : positive) :
  Zpos p < 2 ^ 53 ->
  exists (m : positive) (e : Z),
    binary_round Binary64.prec Binary64.emax s p 0 = S754_finite s m e
    /\ -52 <= e <= 0 /\ Zpos m = Zpos p * 2 ^ (- e).
Proof.
  intros Hp.
  assert (Zpos (digits2_pos p) <= 53) as Hd.
  { pose proof (digits2_pos_lower p) as Hl.
    destruct (Z_le_gt_dec (Zpos (digits2_pos p)) 53) as [H|H]; [exact H|].
    exfalso. assert (2 ^ 53 <= 2 ^ (Zpos (digits2_pos p) - 1)); [|lia].
    apply Z.pow_le_mono_r; lia. }
  unfold binary_round.
  assert (fexp Binary64.prec Binary64.emax (Zpos (digits2_pos p) + 0)
          = Zpos (digits2_pos p) - 53) as Hf.
  { unfold fexp, emin. change (3 - Binary64.emax - Binary64.prec) with (-1074).
    change Binary64.prec with 53. lia. }
  rewrite Hf. unfold shl_align.
  destruct (Zpos (digits2_pos p) - 53 - 0) as [|k|k] eqn:Hk; [| lia |].
  - destruct (binary_round_aux_spec s (Zpos p) 0 loc_Exact) as (m3 & e3 & _ & -> & _ & Hex);
      [lia|].
    assert (fexp Binary64.prec Binary64.emax (Zdigits2 (Zpos p) + 0) <= 0) as Hn
      by (simpl Zdigits2; lia).
    destruct (proj1 (Hex Hn) eq_refl) as [-> ->].
    exists p, 0. repeat split; try lia. 
  - destruct (binary_round_aux_spec s (Zpos (Pos.iter xO p k)) (Zpos (digits2_pos p) - 53)
                loc_Exact) as (m3 & e3 & _ & -> & _ & Hex); [lia|].
    assert (fexp Binary64.prec Binary64.emax
              (Zdigits2 (Zpos (Pos.iter xO p k)) + (Zpos (digits2_pos p) - 53))
            <= Zpos (digits2_pos p) - 53) as Hn.
    { simpl Zdigits2. rewrite digits2_pos_iter_xO. unfold fexp, emin.
      change (3 - Binary64.emax - Binary64.prec) with (-1074).
      change Binary64.prec with 53. lia. }
    destruct (proj1 (Hex Hn) eq_refl) as [-> ->].
    assert ((Zpos (digits2_pos p) - 53 <=? Binary64.emax - Binary64.prec) = true) as ->
      by (apply Z.leb_le; change (Binary64.emax - Binary64.prec) with 971; lia).
    eexists _, _. split; [reflexivity|]. split; [lia|].
    rewrite Pos_iter_xO. f_equal. f_equal. lia.
Qed.

Lemma of_Z_to_int (z : Z) :
  - 2 ^ 53 < z < 2 ^ 53 -> Binary64.to_int (Binary64.of_Z z) = Some z.
Proof.
  intros Hz. unfold Binary64.of_Z.
  destruct z as [|p|p]; simpl binary_normalize; [reflexivity| |].
  - destruct (of_Z_exact false p) as (m & e & -> & He & Hm); [lia|].
    unfold Binary64.to_int. simpl cond_Zopp.
    destruct (Z.leb_spec 0 e) as [H0|H0].
    + assert (e = 0) as -> by lia. f_equal. simpl in Hm. lia.
    + assert (0 < 2 ^ (- e)) by (apply Z.pow_pos_nonneg; lia).
      rewrite Hm, Z.mod_mul by lia. simpl. rewrite Z.div_mul by lia. reflexivity.
  - destruct (of_Z_exact true p) as (m & e & -> & He & Hm); [lia|].
    unfold Binary64.to_int.
    destruct (Z.leb_spec 0 e) as [H0|H0].
    + assert (e = 0) as -> by lia. f_equal. simpl in Hm. simpl cond_Zopp. lia.
    + assert (0 < 2 ^ (- e)) by (apply Z.pow_pos_nonneg; lia).
      rewrite Hm, Z.mod_mul by lia. simpl Z.eqb. cbv iota.
      rewrite Z.div_mul by lia. reflexivity.
Qed.

Lemma of_Z_to_Q (z : Z) :
  - 2 ^ 53 < z < 2 ^ 53 ->
  exists u : Q, Binary64.to_Q (Binary64.of_Z z) = Some u /\ (u == inject_Z z)%Q.
Proof.
  intros Hz. unfold Binary64.of_Z.
  destruct z as [|p|p]; simpl binary_normalize.
  - exists 0%Q. split; reflexivity.
  - destruct (of_Z_exact false p) as (m & e & -> & He & Hm); [lia|].
    eexists. split; [reflexivity|]. simpl cond_Zopp. rewrite Hm, inject_Z_mult.
    rewrite pow2_Z by lia. rewrite <- Qmult_assoc, <- pow2_add.
    replace (- e + e) with 0 by lia. change (2 ^ 0)%Q with 1%Q. ring.
  - destruct (of_Z_exact true p) as (m & e & -> & He & Hm); [lia|].
    eexists. split; [reflexivity|]. rewrite cond_Zopp_value.
    rewrite Hm, inject_Z_mult.
    rewrite pow2_Z by lia. rewrite <- Qmult_assoc, <- pow2_add.
    replace (- e + e) with 0 by lia. change (2 ^ 0)%Q with 1%Q.
    change (Zneg p) with (- Zpos p). rewrite inject_Z_opp. ring.
Qed.


(** ** Binary64: [Math.round] *)

Lemma Qfloor_half (z : Z) : Qfloor (inject_Z z + (1 # 2)) = z.
Proof.
  apply Z.le_antisymm.
  - apply Z.lt_succ_r. rewrite Zlt_Qlt.
    eapply Qle_lt_trans; [apply Qfloor_le|].
    unfold Z.succ. rewrite inject_Z_plus. change (inject_Z 1) with 1%Q. lra.
  - assert (inject_Z z <= inject_Z z + (1 # 2))%Q as H by lra.
    apply Qfloor_resp_le in H. now rewrite Qfloor_Z in H.
Qed.

(** [Math.round] of a finite number of size below [2^52] is the integer
    [floor (u + 1/2)], [u] being its value. *)
Lemma Math_round_value (x : Binary64.num) (u : Q) :
  Binary64.to_Q x = Some u ->
  (- inject_Z (2 ^ 52) <= u)%Q -> (u <= inject_Z (2 ^ 52))%Q ->
  Binary64.to_int (Binary64.Math_round x) = Some (Qfloor (u + (1 # 2))).
Proof.
  intros Hx Hlo Hhi. destruct x as [s|s| |s m e]; try discriminate.
  - injection Hx as <-. reflexivity.
  - injection Hx as <-. unfold Binary64.Math_round.
    destruct (Z.leb_spec 0 e) as [He|He].
    + unfold Binary64.to_int. rewrite (proj2 (Z.leb_le 0 e) He). f_equal.
      rewrite <- pow2_Z, <- inject_Z_mult by exact He. now rewrite Qfloor_half.
    + set (z := Qfloor (inject_Z (cond_Zopp s (Zpos m)) * 2 ^ e + (1 # 2))) in *.
      assert (- 2 ^ 53 < z < 2 ^ 53) as Hz.
      { unfold z. split.
        - assert (- 2 ^ 52 <= Qfloor (inject_Z (cond_Zopp s (Zpos m)) * 2 ^ e + (1 # 2)));
            [|lia].
          rewrite <- (Qfloor_Z (- 2 ^ 52)). apply Qfloor_resp_le.
          rewrite inject_Z_opp. lra.
        - assert (Qfloor (inject_Z (cond_Zopp s (Zpos m)) * 2 ^ e + (1 # 2)) <= 2 ^ 52 + 1);
            [|lia].
          rewrite <- (Qfloor_Z (2 ^ 52 + 1)). apply Qfloor_resp_le.
          rewrite inject_Z_plus. change (inject_Z 1) with 1%Q. lra. }
      destruct z as [|p|p] eqn:Hzeq; [reflexivity| |]; apply of_Z_to_int; lia.
Qed.

(** ** Binary64: signs *)

Lemma binary_round_aux_sign (s : bool) (m e : Z) (l : location) :
  0 <= m ->
  match binary_round_aux Binary64.prec Binary64.emax s m e l with
  | S754_zero s' | S754_finite s' _ _ | S754_infinity s' => s' = s
  | S754_nan => False
  end.
Proof.
  intros Hm.
  destruct (binary_round_aux_spec s m e l Hm) as (m3 & e3 & Hm3 & -> & _).
  destruct m3 as [|p|p]; [reflexivity| |lia].
  destruct (e3 <=? Binary64.emax - Binary64.prec); reflexivity.
Qed.

Lemma binary_round_sign (s : bool) (m : positive) (e : Z) :
  match binary_round Binary64.prec Binary64.emax s m e with
  | S754_zero s' | S754_finite s' _ _ | S754_infinity s' => s' = s
  | S754_nan => False
  end.
Proof.
  unfold binary_round.
  destruct (shl_align m e (fexp Binary64.prec Binary64.emax (Zpos (digits2_pos m) + e)))
    as [mz ez].
  apply binary_round_aux_sign. lia.
Qed.

Lemma mul_nonneg (x y : Binary64.num) :
  Binary64.nonneg x -> Binary64.finite x ->
  Binary64.nonneg y -> Binary64.finite y ->
  Binary64.nonneg (Binary64.mul x y).
Proof.
  destruct x as [sx|sx| |[|] mx ex]; try contradiction;
    destruct y as [sy|sy| |[|] my ey]; try contradiction; intros _ _ _ _;
    try exact I.
  unfold Binary64.mul, SFmul. simpl xorb.
  pose proof (binary_round_aux_sign false (Zpos (mx * my)) (ex + ey) loc_Exact
                ltac:(lia)) as H.
  destruct (binary_round_aux _ _ _ _ _ _) as [s|s| |s m e]; try contradiction;
    subst s; exact I.
Qed.

Lemma add_nonneg (x y : Binary64.num) :
  Binary64.nonneg x -> Binary64.nonneg y -> Binary64.nonneg (Binary64.add x y).
Proof.
  destruct x as [sx|[|]| |[|] mx ex]; try contradiction;
    destruct y as [sy|[|]| |[|] my ey]; try contradiction; intros _ _;
    try exact I.
  - destruct sx, sy; exact I.
  - unfold Binary64.add, SFadd. simpl cond_Zopp.
    rewrite <- Pos2Z.inj_add. simpl binary_normalize.
    pose proof (binary_round_sign false
                  (fst (shl_align mx ex (Z.min ex ey)) + fst (shl_align my ey (Z.min ex ey)))
                  (Z.min ex ey)) as H.
    destruct (binary_round _ _ _ _ _) as [s|s| |s m e]; try contradiction;
      subst s; exact I.
Qed.

(** ** Binary64: [Math.min] against 99 *)

Lemma of_Z_99 : Binary64.of_Z 99 = S754_finite false 6966505673588736 (-46).
Proof. reflexivity. Qed.

Lemma of_Z_99_value : (inject_Z (Zpos 6966505673588736) * 2 ^ (-46) == 99)%Q.
Proof. reflexivity. Qed.

(** Whatever [x] is, [Math.min x y] for a positive [y] is [NaN],
    [-Infinity], or a finite number not above [y]. *)
Lemma Math_min_le (x : Binary64.num) (my : positive) (ey : Z) :
  match Binary64.to_Q (Binary64.Math_min x (S754_finite false my ey)) with
  | Some u => (u <= inject_Z (Zpos my) * 2 ^ ey)%Q
  | None =>
      Binary64.Math_min x (S754_finite false my ey) = S754_nan
      \/ Binary64.Math_min x (S754_finite false my ey) = S754_infinity true
  end.
Proof.
  assert (0 < inject_Z (Zpos my) * 2 ^ ey)%Q as Hy
    by (apply Qmult_lt_0_compat; [reflexivity | apply pow2_pos]).
  destruct x as [sx|[|]| |sx mx ex]; unfold Binary64.Math_min;
    cbn [Binary64.compare SFcompare].
  - destruct sx; cbn [Binary64.to_Q]; lra.
  - now right.
  - cbn [Binary64.to_Q cond_Zopp]. lra.
  - now left.
  - destruct (Qcompare_spec (inject_Z (cond_Zopp sx (Zpos mx)) * 2 ^ ex)
                            (inject_Z (cond_Zopp false (Zpos my)) * 2 ^ ey)) as [H|H|H];
      cbn [Binary64.to_Q cond_Zopp] in *; lra.
Qed.

(** For [x] zero or positive it is a finite number in [[0, y]]. *)
Lemma Math_min_nonneg (x : Binary64.num) (my : positive) (ey : Z) :
  Binary64.nonneg x ->
  Binary64.within 0 (inject_Z (Zpos my) * 2 ^ ey)
    (Binary64.Math_min x (S754_finite false my ey)).
Proof.
  intros Hx.
  assert (0 < inject_Z (Zpos my) * 2 ^ ey)%Q as Hy
    by (apply Qmult_lt_0_compat; [reflexivity | apply pow2_pos]).
  unfold Binary64.within.
  destruct x as [sx|[|]| |[|] mx ex]; try contradiction;
    unfold Binary64.Math_min; cbn [Binary64.compare SFcompare].
  - destruct sx; cbn [Binary64.to_Q]; lra.
  - cbn [Binary64.to_Q cond_Zopp]. lra.
  - assert (0 < inject_Z (Zpos mx) * 2 ^ ex)%Q as Hpos
      by (apply Qmult_lt_0_compat; [reflexivity | apply pow2_pos]).
    destruct (Qcompare_spec (inject_Z (cond_Zopp false (Zpos mx)) * 2 ^ ex)
                            (inject_Z (cond_Zopp false (Zpos my)) * 2 ^ ey)) as [H|H|H];
      cbn [Binary64.to_Q cond_Zopp] in *; lra.
Qed.

(** ** Binary64: rounding to an integer in a range *)

Lemma Math_round_within (x : Binary64.num) (lo hi : Z) :
  - 2 ^ 52 < lo -> hi < 2 ^ 52 ->
  Binary64.within (inject_Z lo - (1 # 2)) (inject_Z hi + (1 # 4)) x ->
  exists z : Z,
    Binary64.to_int (Binary64.Math_round x) = Some z /\ lo <= z <= hi
    /\ forall u, Binary64.to_Q x = Some u -> z = Qfloor (u + (1 # 2)).
Proof.
  intros Hlo Hhi. unfold Binary64.within.
  destruct (Binary64.to_Q x) as [u|] eqn:Hu; [|contradiction]. intros [H1 H2].
  exists (Qfloor (u + (1 # 2))).
  assert (- inject_Z (2 ^ 52) + 1 <= inject_Z lo)%Q as Hlo'.
  { change 1%Q with (inject_Z 1). rewrite <- inject_Z_opp, <- inject_Z_plus, <- Zle_Qle. lia. }
  assert (inject_Z hi + 1 <= inject_Z (2 ^ 52))%Q as Hhi'.
  { change 1%Q with (inject_Z 1). rewrite <- inject_Z_plus, <- Zle_Qle. lia. }
  pose proof (Math_round_value x u Hu) as Hr.
  set (T := inject_Z (2 ^ 52)) in *. clearbody T.
  split; [|split].
  - apply Hr; lra.
  - split.
    + rewrite <- (Qfloor_Z lo). apply Qfloor_resp_le. lra.
    + assert (Qfloor (u + (1 # 2)) <= Qfloor (inject_Z hi + 1)) as H' by (apply Qfloor_resp_le; lra).
      change 1%Q with (inject_Z 1) in H'. rewrite <- inject_Z_plus, Qfloor_Z in H'.
      assert (Qfloor (u + (1 # 2)) <> hi + 1); [|lia].
      intros Heq. pose proof (Qfloor_le (u + (1 # 2))) as Hf. rewrite Heq in Hf.
      rewrite inject_Z_plus in Hf. change (inject_Z 1) with 1%Q in Hf. lra.
  - intros u' [= <-]. reflexivity.
Qed.

(** [Math.round] of a number not above 99 is not above 99. *)
Lemma Math_round_le_99 (x : Binary64.num) (u : Q) (z : Z) :
  Binary64.to_Q x = Some u -> (u <= 99)%Q ->
  Binary64.to_int (Binary64.Math_round x) = Some z -> z <= 99.
Proof.
  intros Hx Hu. destruct x as [s|s| |s m e]; try discriminate.
  - simpl. intros [= <-]. lia.
  - injection Hx as <-. unfold Binary64.Math_round.
    destruct (Z.leb_spec 0 e) as [He|He].
    + unfold Binary64.to_int. rewrite (proj2 (Z.leb_le 0 e) He). intros [= <-].
      rewrite <- pow2_Z, <- inject_Z_mult in Hu by exact He.
      change 99%Q with (inject_Z 99) in Hu. now rewrite <- Zle_Qle in Hu.
    + assert (Qfloor (inject_Z (cond_Zopp s (Zpos m)) * 2 ^ e + (1 # 2)) <= 99) as Hz.
      { assert (Qfloor (inject_Z (cond_Zopp s (Zpos m)) * 2 ^ e + (1 # 2))
                <= Qfloor (inject_Z 99 + (1 # 2))) as H'.
        { apply Qfloor_resp_le. change (inject_Z 99) with 99%Q. lra. }
        now rewrite Qfloor_half in H'. }
      destruct (Qfloor (inject_Z (cond_Zopp s (Zpos m)) * 2 ^ e + (1 # 2))) as [|p|p] eqn:Hq.
      * simpl. intros [= <-]. lia.
      * rewrite of_Z_to_int by lia. intros [= <-]. exact Hz.
      * unfold Binary64.of_Z. simpl binary_normalize.
        pose proof (binary_round_sign true p 0) as Hs.
        destruct (binary_round _ _ _ _ _) as [s'|s'| |s' m' e']; try contradiction;
          subst s'; simpl; try discriminate.
        -- intros [= <-]. lia.
        -- destruct (Z.leb_spec 0 e') as [He'|He'].
           ++ intros [= <-]. assert (0 <= 2 ^ e') by (apply Z.pow_nonneg; lia). nia.
           ++ destruct (Zpos m' mod 2 ^ (- e') =? 0); [|discriminate].
              intros [= <-].
              assert (0 < 2 ^ (- e')) by (apply Z.pow_pos_nonneg; lia).
              assert (0 <= Zpos m' / 2 ^ (- e')) by (apply Z.div_pos; lia).
              lia.
Qed.

(** ** Binary64: sums *)

Lemma fold_left_sum_from {A : Type} (f : A -> Binary64.num) (l : list A)
    (acc : Binary64.num) :
  fold_left (fun acc x => Binary64.add acc (f x)) l acc
  = Binary64.sum_from acc (map f l).
Proof. revert acc. induction l as [|x l IH]; intros acc; simpl; [reflexivity | apply IH]. Qed.

Lemma sum_from_nonneg (terms : list Binary64.num) (acc : Binary64.num) :
  Binary64.nonneg acc -> Forall Binary64.nonneg terms ->
  Binary64.nonneg (Binary64.sum_from acc terms).
Proof.
  intros Hacc Hterms. revert acc Hacc.
  induction Hterms as [|t terms Ht _ IH]; intros acc Hacc; simpl; [exact Hacc|].
  apply IH. now apply add_nonneg.
Qed.


(** ** Binary64: the role fit *)

Lemma metric_value_or0 (player : Player) (m : string) :
  Binary64.or0 (Binary64.get player m) = Binary64.metric_value player m.
Proof.
  unfold Binary64.get, Binary64.metric_value.
  destruct (metrics player !! m); reflexivity.
Qed.

Lemma calcRoleFit_binary64_eq (player : Player) (template : list (string * Q)) :
  Binary64.calcRoleFit player template
  = Binary64.Math_round
      (Binary64.Math_min (Binary64.weighted_sum player template) (Binary64.of_Z 99)).
Proof.
  unfold Binary64.calcRoleFit, Binary64.weighted_sum, Binary64.sum_of.
  do 2 f_equal.
  rewrite <- (fold_left_sum_from
                (fun '(m, w) => Binary64.mul (Binary64.metric_value player m)
                                             (Binary64.of_decimal w))).
  change (Binary64.of_Z 0) with (S754_zero false).
  generalize (S754_zero false).
  induction template as [|[m w] template IH]; intros acc; simpl; [reflexivity|].
  rewrite metric_value_or0. apply IH.
Qed.

Lemma weighted_sum_binary64_nonneg (player : Player) (template : list (string * Q)) :
  Forall (fun mw =>
            (Binary64.nonneg (Binary64.metric_value player (fst mw))
             /\ Binary64.finite (Binary64.metric_value player (fst mw)))
            /\ (Binary64.nonneg (Binary64.of_decimal (snd mw))
                /\ Binary64.finite (Binary64.of_decimal (snd mw)))) template ->
  Binary64.nonneg (Binary64.weighted_sum player template).
Proof.
  intros Hall. unfold Binary64.weighted_sum, Binary64.sum_of.
  apply sum_from_nonneg; [exact I|].
  induction Hall as [|[m w] template [[H1 H2] [H3 H4]] _ IH]; simpl; constructor.
  - now apply mul_nonneg.
  - exact IH.
Qed.

Lemma calcRoleFit_binary64_range (player : Player) (template : list (string * Q)) :
  Binary64.nonneg (Binary64.weighted_sum player template) ->
  exists z : Z,
    Binary64.to_int (Binary64.calcRoleFit player template) = Some z /\ 0 <= z <= 99.
Proof.
  intros Hnn. rewrite calcRoleFit_binary64_eq, of_Z_99.
  pose proof (Math_min_nonneg _ 6966505673588736 (-46) Hnn) as Hw.
  destruct (Math_round_within
              (Binary64.Math_min (Binary64.weighted_sum player template)
                 (S754_finite false 6966505673588736 (-46))) 0 99)
    as (z & Hz & Hr & _); [lia | lia | | exists z; split; assumption].
  unfold Binary64.within in *.
  destruct (Binary64.to_Q _) as [u|]; [|contradiction].
  pose proof of_Z_99_value as H99.
  change (inject_Z 0) with 0%Q. change (inject_Z 99) with 99%Q. lra.
Qed.

Lemma calcRoleFit_binary64_le_99 (player : Player) (template : list (string * Q)) (z : Z) :
  Binary64.to_int (Binary64.calcRoleFit player template) = Some z -> z <= 99.
Proof.
  rewrite calcRoleFit_binary64_eq, of_Z_99.
  pose proof (Math_min_le (Binary64.weighted_sum player template)
                6966505673588736 (-46)) as Hle.
  destruct (Binary64.to_Q _) as [u|] eqn:Hu.
  - pose proof of_Z_99_value as H99. apply (Math_round_le_99 _ u); [exact Hu | lra].
  - destruct Hle as [-> | ->]; discriminate.
Qed.

(** ** Binary64: the overall rating *)

Lemma computeOverall_binary64_eq (catalog : list string) (player : Player) :
  Binary64.computeOverall catalog player
  = Binary64.Math_round (Binary64.metric_mean catalog player).
Proof.
  unfold Binary64.computeOverall, Binary64.metric_mean, Binary64.sum_of.
  rewrite length_map. do 2 f_equal.
  change (Binary64.of_Z 0) with (S754_zero false).
  rewrite (map_ext _ (Binary64.metric_value player))
    by (intros m; apply metric_value_or0).
  generalize (S754_zero false) (map (Binary64.metric_value player) catalog).
  intros acc l. revert acc. induction l as [|x l IH]; intros acc; simpl; [reflexivity | apply IH].
Qed.


Lemma err_small : (Binary64.err 1048576 <= 1 # 1000000000)%Q.
Proof. vm_compute. discriminate. Qed.


Lemma sum_from_zeros (l : list Binary64.num) :
  Forall (fun x => x = S754_zero false) l ->
  Binary64.sum_from (S754_zero false) l = S754_zero false.
Proof. induction 1 as [|x l -> _ IH]; simpl; [reflexivity | exact IH]. Qed.


(** ** Binary64: the similarity *)

Lemma sum_sq_binary64_eq (catalog : list string) (a b : Player) :
  Binary64.sum_sq catalog a b = Binary64.squared_distance catalog a b.
Proof.
  unfold Binary64.sum_sq, Binary64.squared_distance, Binary64.sum_of, Binary64.Math_pow2.
  change (Binary64.of_Z 0) with (S754_zero false).
  generalize (S754_zero false).
  induction catalog as [|m catalog IH]; intros acc; simpl; [reflexivity|].
  rewrite !metric_value_or0. apply IH.
Qed.

(** ** Binary64: numerals *)



Lemma numeral_0 : Binary64.numeral 0.
Proof. split; reflexivity. Qed.


(** ** Rounding two numbers that are close *)



(** ** Binary64: how far the overall rating is from the exact mean *)



(** ** Binary64: how far the role fit is from the exact weighted sum *)




(** ** Binary64: the square root *)

Lemma div2_bounds (a : Z) : 2 * Z.div2 a <= a <= 2 * Z.div2 a + 1.
Proof. pose proof (Z.div2_odd a) as H. destruct (Z.odd a); simpl in H; lia. Qed.

(** The root of a positive number [X]: the result is within four times
    [W] of a rational [Xq] that is below the root by less than [W], [W]
    being a [2^-52]th of two lower bounds of the root. *)
Lemma sqrt_bracket (mx : positive) (ex : Z) :
  let X := (inject_Z (Zpos mx) * 2 ^ ex)%Q in
  (X <= 2 ^ 900)%Q ->
  exists u Xq B : Q,
    Binary64.to_Q (Binary64.Math_sqrt (S754_finite false mx ex)) = Some u
    /\ (0 <= Xq /\ 0 < B /\ Xq * Xq <= X /\ B * B <= X)%Q
    /\ (let W := ((Xq + B) * (1 # 2 ^ 52) + 2 ^ (-1074))%Q in
        X < (Xq + W) * (Xq + W) /\ Xq - 4 * W <= u /\ u <= Xq + 4 * W)%Q.
Proof.
  intros X HX.
  assert (0 < X)%Q as HXpos
    by (apply Qmult_lt_0_compat; [reflexivity | apply pow2_pos]).
  unfold Binary64.Math_sqrt, SFsqrt, SFsqrt_core_binary.
  set (d := Zdigits2 (Zpos mx)).
  set (k := Z.div2 (d + ex + 1)).
  set (e' := Z.min (fexp Binary64.prec Binary64.emax k) (Z.div2 ex)).
  set (s := ex - 2 * e').
  pose proof (div2_bounds ex) as Hdiv2. pose proof (div2_bounds (d + ex + 1)) as Hk.
  fold k in Hk.
  assert (0 <= s) as Hs by (unfold s, e'; lia).
  assert (match s with
          | 0 => Zpos mx
          | Zpos _ => Z.shiftl (Zpos mx) s
          | Zneg _ => 0
          end = Zpos mx * 2 ^ s) as ->.
  { destruct s as [|p|p] eqn:Hp; [lia | | lia].
    rewrite Z.shiftl_mul_pow2 by lia. reflexivity. }
  assert (0 < 2 ^ s) as Hps by (apply Z.pow_pos_nonneg; lia).
  pose proof (Z.sqrtrem_spec (Zpos mx * 2 ^ s) ltac:(lia)) as Hsq.
  destruct (Z.sqrtrem (Zpos mx * 2 ^ s)) as [q r]. destruct Hsq as [Hsq Hr].
  assert (1 <= q) as Hq by nia.
  (* the value, [q] units of [2^e'], and the next one bracket the root *)
  assert (X == inject_Z (Zpos mx * 2 ^ s) * (2 ^ e' * 2 ^ e'))%Q as HX'.
  { unfold X. rewrite inject_Z_mult, pow2_Z by exact Hs.
    replace ex with (s + (e' + e')) at 1 by (unfold s; lia).
    rewrite !pow2_add. ring. }
  pose proof (pow2_pos e') as HE'.
  set (Xq := (inject_Z q * 2 ^ e')%Q).
  assert (0 < Xq)%Q as HXq.
  { unfold Xq. apply Qmult_lt_0_compat; [|exact HE'].
    change 0%Q with (inject_Z 0). rewrite <- Zlt_Qlt. lia. }
  assert (Xq * Xq <= X)%Q as Hlow.
  { rewrite HX'. unfold Xq.
    assert (inject_Z q * inject_Z q <= inject_Z (Zpos mx * 2 ^ s))%Q as Hz.
    { rewrite <- inject_Z_mult, <- Zle_Qle. lia. }
    set (E := (2 ^ e')%Q) in *. set (qq := inject_Z q) in *.
    set (xx := inject_Z (Zpos mx * 2 ^ s)) in *.
    assert (0 < E * E)%Q by (apply Qmult_lt_0_compat; assumption).
    clearbody E qq xx. nra. }
  assert (X < (Xq + 2 ^ e') * (Xq + 2 ^ e'))%Q as Hupp.
  { rewrite HX'. unfold Xq.
    assert (inject_Z (Zpos mx * 2 ^ s) < (inject_Z q + 1) * (inject_Z q + 1))%Q as Hz.
    { change 1%Q with (inject_Z 1). rewrite <- inject_Z_plus, <- inject_Z_mult, <- Zlt_Qlt.
      lia. }
    set (E := (2 ^ e')%Q) in *. set (qq := inject_Z q) in *.
    set (xx := inject_Z (Zpos mx * 2 ^ s)) in *.
    assert (0 < E * E)%Q by (apply Qmult_lt_0_compat; assumption).
    clearbody E qq xx. nra. }
  (* [2^(k-1)] is below the root *)
  set (P := (2 ^ (k - 1))%Q).
  assert (0 < P)%Q as HP by apply pow2_pos.
  assert (P * P <= X)%Q as HPX.
  { unfold P. rewrite <- pow2_add.
    eapply Qle_trans; [|apply mantissa_lower].
    apply pow2_le. fold d. change (Zpos (digits2_pos mx)) with d. lia. }
  set (l := if r =? 0 then loc_Exact else loc_Inexact (if r <=? q then Lt else Gt)).
  destruct (binary_round_aux_spec false q e' l ltac:(lia))
    as (m3 & e3 & Hm3 & -> & [Hup Hlo] & Hns).
  set (R := (inject_Z m3 * 2 ^ e3)%Q) in *. fold Xq in Hup, Hlo, Hns.
  (* the two cases of the rounding *)
  assert (exists B : Q,
            (0 < B /\ B * B <= X)%Q
            /\ (let W := ((Xq + B) * (1 # 2 ^ 52) + 2 ^ (-1074))%Q in
                2 ^ e' <= W /\ Xq - 4 * W <= R /\ R <= Xq + 4 * W)%Q)
    as (B & [HB0 HBX] & HW).
  { destruct (Z_le_gt_dec (fexp Binary64.prec Binary64.emax (Zdigits2 q + e')) e')
      as [Hn|Hn].
    - exists P. split; [split; assumption|]. cbv zeta.
      destruct (Hns Hn) as [_ Hlo']. rewrite Z.max_l in Hup by lia.
      assert (2 ^ e' <= P * (1 # 2 ^ 52) + 2 ^ (-1074))%Q as HU.
      { assert (e' <= fexp Binary64.prec Binary64.emax k) by (unfold e'; lia).
        eapply Qle_trans; [apply pow2_le; eassumption|]. apply fexp_pow2. }
      set (E := (2 ^ e')%Q) in *. clearbody R Xq P E. name_constants.
      assert (0 <= Xq * c52)%Q by nra. assert (0 <= P * c52)%Q by nra.
      assert (E * c52 <= E)%Q by nra.
      assert ((Xq + E) * c52 == Xq * c52 + E * c52)%Q as Hd by ring.
      assert ((Xq + P) * c52 == Xq * c52 + P * c52)%Q as Hd' by ring.
      rewrite Hd in Hlo'. rewrite Hd'. repeat split; lra.
    - exists Xq. split; [split; assumption|]. cbv zeta.
      rewrite Z.max_r in Hup, Hlo by lia.
      assert (2 ^ e' <= 2 ^ fexp Binary64.prec Binary64.emax (Zdigits2 q + e'))%Q as HEU
        by (apply pow2_le; lia).
      assert (2 ^ fexp Binary64.prec Binary64.emax (Zdigits2 q + e')
              <= Xq * (1 # 2 ^ 52) + 2 ^ (-1074))%Q as HU.
      { destruct q as [|pq|pq]; [lia| |lia].
        eapply Qle_trans; [apply fexp_pow2|]. simpl Zdigits2.
        pose proof (mantissa_lower pq e') as Hl. fold Xq in Hl.
        assert (0 < (1 # 2 ^ 52))%Q by reflexivity.
        set (c := (1 # 2 ^ 52)%Q) in *.
        set (L := (2 ^ (Zpos (digits2_pos pq) + e' - 1))%Q) in *.
        clearbody c L Xq. nra. }
      set (U := (2 ^ fexp Binary64.prec Binary64.emax (Zdigits2 q + e'))%Q) in *.
      set (E := (2 ^ e')%Q) in *. clearbody R Xq U E. name_constants.
      assert (0 <= Xq * c52)%Q by nra.
      assert (0 < U)%Q by lra.
      assert (U * c52 <= U)%Q by nra.
      assert ((Xq + U) * c52 == Xq * c52 + U * c52)%Q as Hd by ring.
      assert ((Xq + Xq) * c52 == Xq * c52 + Xq * c52)%Q as Hd' by ring.
      rewrite Hd in Hlo. rewrite Hd'. repeat split; lra. }
  cbv zeta in HW. destruct HW as (HEW & HR1 & HR2).
  set (W := ((Xq + B) * (1 # 2 ^ 52) + 2 ^ (-1074))%Q) in *.
  assert (0 < W)%Q as HW0 by lra.
  assert (Xq <= X + 1 /\ B <= X + 1)%Q as [HXq1 HB1].
  { clearbody Xq X. split; nra. }
  destruct (rounded_value false m3 e3 (Xq + 4 * W)%Q Hm3 HR2) as (u & Hu & Hval).
  { assert (W <= Xq + B + 1)%Q as HW1.
    { unfold W. assert (0 < (1 # 2 ^ 52))%Q by reflexivity.
      assert ((1 # 2 ^ 52) <= 1)%Q by (vm_compute; discriminate).
      assert (2 ^ (-1074) <= 1)%Q by (vm_compute; discriminate).
      set (c := (1 # 2 ^ 52)%Q) in *. set (h := (2 ^ (-1074))%Q) in *.
      clearbody Xq c h. nra. }
    assert (2 ^ 900 * 16 + 16 <= 2 ^ 972)%Q as Hbig by (vm_compute; discriminate).
    set (T := (2 ^ 900)%Q) in *. set (T' := (2 ^ 972)%Q) in *.
    clearbody Xq W T T' X. lra. }
  exists u, Xq, B. split; [exact Hu|]. split; [repeat split; try assumption; lra|].
  cbv zeta. fold W. fold R in Hval. rewrite Hval. repeat split; try assumption.
  eapply Qlt_le_trans; [exact Hupp|].
  set (E := (2 ^ e')%Q) in *. clearbody Xq E W. nra.
Qed.

(** ** Binary64: how far the squared distance is from the exact one *)


Lemma within_finite (lo hi : Q) (x : Binary64.num) :
  Binary64.within lo hi x -> Binary64.finite x.
Proof. unfold Binary64.within. destruct x; simpl; tauto. Qed.



Lemma err_2_24 : (Binary64.err 16777216 <= 1 # 50000000)%Q.
Proof. vm_compute. discriminate. Qed.


(** The square of the largest distance, [N * 100 * 100]. *)
Lemma to_Q_positive (x : Binary64.num) (u : Q) :
  Binary64.to_Q x = Some u -> (0 < u)%Q ->
  exists (m : positive) (e : Z),
    x = S754_finite false m e /\ (u == inject_Z (Zpos m) * 2 ^ e)%Q.
Proof.
  destruct x as [s|s| |s m e]; try discriminate; intros [= <-] Hu; [lra|].
  destruct s.
  - exfalso. rewrite cond_Zopp_value in Hu.
    assert (0 < inject_Z (Zpos m) * 2 ^ e)%Q
      by (apply Qmult_lt_0_compat; [reflexivity | apply pow2_pos]).
    lra.
  - exists m, e. split; reflexivity.
Qed.

Lemma max_square_binary64 (n : nat) :
  (1 <= n <= 1000)%nat ->
  exists u : Q,
    Binary64.to_Q (Binary64.mul (Binary64.mul (Binary64.of_Z (Z.of_nat n)) (Binary64.of_Z 100))
                                (Binary64.of_Z 100)) = Some u
    /\ (inject_Z (Z.of_nat n) * 10000 - (1 # 1000000) <= u
        /\ u <= inject_Z (Z.of_nat n) * 10000 + (1 # 1000000))%Q.
Proof.
  intros Hn.
  destruct (of_Z_to_Q (Z.of_nat n)) as (un & Hun & Hvn); [lia|].
  destruct (of_Z_to_Q 100) as (uh & Huh & Hvh); [lia|].
  change (inject_Z 100) with 100%Q in Hvh.
  assert (1 <= inject_Z (Z.of_nat n) /\ inject_Z (Z.of_nat n) <= 1000)%Q as [Hn1 Hn2].
  { split; [change 1%Q with (inject_Z 1) | change 1000%Q with (inject_Z 1000)];
      rewrite <- Zle_Qle; lia. }
  set (N := inject_Z (Z.of_nat n)) in *. clearbody N.
  pose proof err_small as He20. pose proof err_2_24 as He24.
  pose proof (err_pos 1048576 ltac:(lra)). pose proof (err_pos 16777216 ltac:(lra)).
  destruct (mul_value _ _ un uh 1048576 Hun Huh) as (u1 & Hu1 & Ha & Hb);
    [rewrite Hvn, Hvh; lra | rewrite Hvn, Hvh; lra | vm_compute; discriminate |].
  rewrite Hvn, Hvh in Ha, Hb.
  destruct (mul_value _ _ u1 uh 16777216 Hu1 Huh) as (u2 & Hu2 & Hc & Hd);
    [rewrite Hvh; lra | rewrite Hvh; lra | vm_compute; discriminate |].
  rewrite Hvh in Hc, Hd.
  exists u2. split; [exact Hu2|]. split; lra.
Qed.

(** ** Binary64: roots against real roots *)


(** [Math.sqrt] of a finite number from zero up to [M^2] is within
    [3 * Binary64.err M] of the real root. *)
Lemma sqrt_value (x : Binary64.num) (ux M : Q) :
  Binary64.to_Q x = Some ux -> Binary64.nonneg x ->
  (ux <= M * M)%Q -> (1 <= M)%Q -> (M <= 2 ^ 400)%Q ->
  exists u : Q,
    Binary64.to_Q (Binary64.Math_sqrt x) = Some u
    /\ (sqrt (Q2R ux) - Q2R (3 * Binary64.err M) <= Q2R u
        /\ Q2R u <= sqrt (Q2R ux) + Q2R (3 * Binary64.err M))%R.
Proof.
  intros Hx Hnn HuM HM1 HM.
  pose proof (err_pos M ltac:(lra)) as Herr.
  assert (0 < Q2R (3 * Binary64.err M))%R as HerrR.
  { replace 0%R with (Q2R 0) by (unfold Q2R; simpl; field). apply Qlt_Rlt. lra. }
  destruct x as [s|s| |[|] mx ex]; try contradiction; try discriminate.
  - injection Hx as <-. exists 0%Q. split; [reflexivity|].
    replace (Q2R 0) with 0%R by (unfold Q2R; simpl; field). rewrite sqrt_0. lra.
  - injection Hx as <-. simpl cond_Zopp in *.
    set (X := (inject_Z (Zpos mx) * 2 ^ ex)%Q) in *.
    assert (M * M <= 2 ^ 900)%Q as HMM.
    { assert (2 ^ 400 * 2 ^ 400 <= 2 ^ 900)%Q as Hbig by (vm_compute; discriminate).
      set (T := (2 ^ 400)%Q) in *. set (T' := (2 ^ 900)%Q) in *.
      clearbody T T'. nra. }
    destruct (sqrt_bracket mx ex ltac:(fold X; lra))
      as (u & Xq & B & Hu & (HXq & HB & HXqX & HBX) & HW).
    fold X in HXqX, HBX, HW. cbv zeta in HW.
    set (W := ((Xq + B) * (1 # 2 ^ 52) + 2 ^ (-1074))%Q) in *.
    destruct HW as (HXW & Hu1 & Hu2).
    exists u. split; [exact Hu|].
    (* in the rationals *)
    assert (Xq <= M /\ B <= M)%Q as [HXqM HBM] by (clearbody X; split; nra).
    assert (5 * W <= 3 * Binary64.err M)%Q as H5W.
    { unfold W, Binary64.err.
      assert ((1 # 2 ^ 52) * 4 == 1 # 2 ^ 50)%Q as Hc4 by reflexivity.
      assert (2 ^ (-1074) * 4 == 2 ^ (-1072))%Q as Heta4 by reflexivity.
      set (c50 := (1 # 2 ^ 50)%Q) in *. set (eta' := (2 ^ (-1072))%Q) in *.
      clearbody X c50 eta'. name_constants. nra. }
    assert (0 < W)%Q as HW0.
    { unfold W. clearbody X. name_constants. nra. }
    (* in the reals *)
    set (T := sqrt (Q2R X)).
    assert (0 <= Q2R Xq)%R as HxqR.
    { replace 0%R with (Q2R 0) by (unfold Q2R; simpl; field). now apply Qle_Rle. }
    assert (Q2R Xq <= T)%R as HT1.
    { unfold T. rewrite <- (sqrt_square (Q2R Xq)) by exact HxqR.
      apply sqrt_le_1_alt. rewrite <- Q2R_mult. now apply Qle_Rle. }
    assert (T < Q2R Xq + Q2R W)%R as HT2.
    { unfold T. rewrite <- Q2R_plus.
      assert (0 <= Q2R (Xq + W))%R as Hnn'.
      { replace 0%R with (Q2R 0) by (unfold Q2R; simpl; field). apply Qle_Rle. lra. }
      rewrite <- (sqrt_square (Q2R (Xq + W))) by exact Hnn'.
      apply sqrt_lt_1_alt. split.
      - replace 0%R with (Q2R 0) by (unfold Q2R; simpl; field). apply Qle_Rle.
        unfold X. apply Qmult_le_0_compat; [discriminate | apply Qlt_le_weak, pow2_pos].
      - rewrite <- Q2R_mult. now apply Qlt_Rlt. }
    apply Qle_Rle in Hu1, Hu2, H5W.
    rewrite Q2R_minus, Q2R_mult in Hu1. rewrite Q2R_plus, Q2R_mult in Hu2.
    rewrite Q2R_mult in H5W.
    replace (Q2R 4) with 4%R in * by (unfold Q2R; simpl; field).
    replace (Q2R 5) with 5%R in * by (unfold Q2R; simpl; field).
    apply Qlt_Rlt in HW0. replace (Q2R 0) with 0%R in HW0 by (unfold Q2R; simpl; field).
    fold T. set (w := Q2R W) in *. set (xq := Q2R Xq) in *. set (uu := Q2R u) in *.
    set (G := Q2R (3 * Binary64.err M)) in *.
    clearbody T w xq uu G. split; lra.
Qed.

(** ** Binary64: how far the similarity is from the exact formula *)

Lemma err_4096 : (3 * Binary64.err 4096 <= 1 # 1000000000)%Q.
Proof. vm_compute. discriminate. Qed.


Lemma Q2R_const (n d : positive) : Q2R (Zpos n # d) = (IZR (Zpos n) / IZR (Zpos d))%R.
Proof. reflexivity. Qed.


(** ** Rounding a number close to a real *)




(** ** Binary64: the scores against the exact formulas *)




(** * The claims *)

(** [Forall P l] for a list written out, each instance closed by [tac]. *)
Ltac forall_listed tac :=
  repeat (apply List.Forall_cons; [tac|]); apply List.Forall_nil.

Ltac in_listed := apply list_elem_of_In; vm_compute; tauto.
Ltac by_computation := vm_compute; first [reflexivity | discriminate].

















(** C7, as the specification states it, fails: there is no floor.  With
    a weight of -1 on a metric at 80 the score is -80. *)
Lemma calcRoleFit_no_floor_binary64 :
  Binary64.to_int (Binary64.calcRoleFit ada penalising) = Some (-80)
  /\ calcRoleFit ada penalising = -80.
Proof. split; vm_compute; reflexivity. Qed.

(** C7, amended: the role-fit score is only capped from above: whatever
    the player and the template, a score that is a number is at most 99,
    and it is an integer from 0 to 99 whenever the weights and the values
    read are finite and not negative.  Below zero nothing is clamped. *)
Theorem calcRoleFit_cap_only (player : Player) (template : list (string * Q)) :
  (forall z : Z,
     Binary64.to_int (Binary64.calcRoleFit player template) = Some z -> z <= 99)
  /\ (Forall (fun mw =>
                (Binary64.nonneg (Binary64.metric_value player (fst mw))
                 /\ Binary64.finite (Binary64.metric_value player (fst mw)))
                /\ (Binary64.nonneg (Binary64.of_decimal (snd mw))
                    /\ Binary64.finite (Binary64.of_decimal (snd mw)))) template ->
      exists z : Z,
        Binary64.to_int (Binary64.calcRoleFit player template) = Some z /\ 0 <= z <= 99).
Proof.
  split; [apply calcRoleFit_binary64_le_99|].
  intros Hall.
  exact (calcRoleFit_binary64_range player template
           (weighted_sum_binary64_nonneg player template Hall)).
Qed.

Lemma calcRoleFit_cap_only_witness :
  (forall z : Z, Binary64.to_int (Binary64.calcRoleFit ada penalising) = Some z -> z <= 99)
  /\ exists z : Z,
       Binary64.to_int
         (Binary64.calcRoleFit bo [("dribbles_p90", 0.30); ("shots_p90", 0.20)]%string%Q)
       = Some z /\ 0 <= z <= 99.
Proof.
  split.
  - exact (proj1 (calcRoleFit_cap_only ada penalising)).
  - apply (proj2 (calcRoleFit_cap_only bo _)).
    forall_listed ltac:(vm_compute; tauto).
Defined.




(** C9, as the specification states it, fails: an age-filter value that
    is not an integer is not reported.  [parseInt] reads [NaN] from it,
    every candidate fails the age test, and the empty shortlist is
    rendered as for any other filter that matches nobody. *)
Lemma renderSimilar_silent_on_bad_age :
  parseInt "abc" = None
  /\ renderSimilar squad (controls_with_age "abc") = Normal (Some [])
  /\ ~ (exists message, renderSimilar squad (controls_with_age "abc") = Throw message).
Proof.
  assert (renderSimilar squad (controls_with_age "abc") = Normal (Some [])) as Hrun
    by reflexivity.
  split; [reflexivity|]. split; [exact Hrun|].
  intros [message Hthrow]. rewrite Hrun in Hthrow. discriminate.
Qed.

(** C9, amended: [renderSimilar] reports no invalid argument and never
    throws.  With a reference player selected, an age-filter value from
    which [parseInt] reads no integer, or a position value other than "all"
    that no player has, gives the empty shortlist. *)
Theorem renderSimilar_unrecognised_filter (PLAYERS : list Player)
    (controls : SimilarControls) :
  (exists outcome, renderSimilar PLAYERS controls = Normal outcome)
  /\ forall ref : Player,
       PLAYERS !! similar_select controls = Some ref ->
       (parseInt (similar_age_filter controls) = None ->
        renderSimilar PLAYERS controls = Normal (Some []))
       /\ (similar_pos_filter controls <> "all"%string ->
           Forall (fun p => position p <> similar_pos_filter controls) PLAYERS ->
           renderSimilar PLAYERS controls = Normal (Some [])).
Proof.
  split.
  - unfold renderSimilar. destruct (PLAYERS !! similar_select controls); eauto.
  - intros ref Href. rewrite (renderSimilar_unfold _ _ _ Href). split.
    + intros ->. rewrite List_filter_none; [reflexivity|]. reflexivity.
    + intros Hpos Hnone.
      destruct (String.eqb_spec (similar_pos_filter controls) "all") as [|_];
        [contradiction|]. simpl.
      rewrite (List_filter_none (fun p => String.eqb (position p) _)); [reflexivity|].
      intros p Hp. apply elem_of_List_filter in Hp as [Hp _].
      rewrite Forall_forall in Hnone. apply String.eqb_neq. now apply Hnone.
Qed.

Lemma renderSimilar_unrecognised_filter_witness :
  renderSimilar squad (controls_with_age "soon") = Normal (Some []).
Proof.
  exact (proj1 (proj2 (renderSimilar_unrecognised_filter squad (controls_with_age "soon"))
                  ada eq_refl) eq_refl).
Defined.

(** C10: two records that agree on the catalog's metrics get the same
    overall rating, the same role fit for every template over the catalog,
    and the same similarity against any other record, whatever their
    identifier, name, position, age, minutes played and other columns. *)
Theorem scores_read_catalog_metrics_only (catalog : list string) (p q : Player) :
  catalog <> [] ->
  agree_on catalog p q ->
  computeOverall catalog p = computeOverall catalog q
  /\ (forall template : list (string * Q),
        Forall (fun mw => fst mw ∈ catalog) template ->
        calcRoleFit p template = calcRoleFit q template)
  /\ (forall other : Player,
        euclideanSimilarity catalog p other = euclideanSimilarity catalog q other
        /\ euclideanSimilarity catalog other p = euclideanSimilarity catalog other q).
Proof.
  intros _ Hagree. unfold agree_on in Hagree. split; [|split].
  - rewrite !computeOverall_eq. apply Math_round_comp. unfold metric_mean.
    assert (Qsum (map (metric_value p) catalog) == Qsum (map (metric_value q) catalog))%Q
      as Hsum.
    { clear -Hagree. induction Hagree as [|m catalog Hm _ IH]; simpl; [reflexivity|].
      unfold Qsum in IH. now rewrite IH, Hm. }
    now rewrite Hsum.
  - intros template Hkeys. rewrite !calcRoleFit_eq. apply Math_round_comp.
    assert (weighted_sum p template == weighted_sum q template)%Q as Hsum.
    { unfold weighted_sum. induction Hkeys as [|[m w] template Hm _ IH]; simpl in *;
        [reflexivity|].
      unfold Qsum in IH. rewrite IH.
      rewrite Forall_forall in Hagree. now rewrite (Hagree m Hm). }
    now rewrite Hsum.
  - intros other. split; apply euclideanSimilarity_congr, squared_distance_agree.
    + eapply Forall_impl; [exact Hagree|]. simpl. intros m Hm. split; [exact Hm | reflexivity].
    + eapply Forall_impl; [exact Hagree|]. simpl. intros m Hm. split; [reflexivity | exact Hm].
Qed.

Lemma scores_read_catalog_metrics_only_witness :
  computeOverall METRICS ada = computeOverall METRICS ada_renamed
  /\ calcRoleFit ada [("shots_p90", 0.20); ("xg_p90", 0.25)]%string%Q
     = calcRoleFit ada_renamed [("shots_p90", 0.20); ("xg_p90", 0.25)]%string%Q
  /\ euclideanSimilarity METRICS ada bo = euclideanSimilarity METRICS ada_renamed bo.
Proof.
  assert (agree_on METRICS ada ada_renamed) as Hagree
    by (unfold agree_on; forall_listed by_computation).
  destruct (scores_read_catalog_metrics_only METRICS ada ada_renamed
              ltac:(discriminate) Hagree) as (Hoverall & Hfit & Hsim).
  split; [exact Hoverall|]. split; [|exact (proj1 (Hsim bo))].
  apply Hfit. forall_listed in_listed.
Defined.

(** * Further properties *)

(** ** More on sorting *)

Lemma sort_insert_map {A B : Type} (g : A -> B) (cmp : B -> B -> Z) (x : A) (l : list A) :
  map g (sort_insert (fun a b => cmp (g a) (g b)) x l) = sort_insert cmp (g x) (map g l).
Proof.
  induction l as [|y l IH]; simpl; [reflexivity|].
  destruct (cmp (g x) (g y) <=? 0); simpl; [reflexivity | now rewrite IH].
Qed.

Lemma Array_sort_map {A B : Type} (g : A -> B) (cmp : B -> B -> Z) (l : list A) :
  map g (Array_sort (fun a b => cmp (g a) (g b)) l) = Array_sort cmp (map g l).
Proof.
  induction l as [|x l IH]; simpl; [reflexivity|].
  now rewrite sort_insert_map, IH.
Qed.

Lemma StronglySorted_app_between {A : Type} (R : A -> A -> Prop) (l1 l2 : list A)
    (x y : A) :
  StronglySorted R (l1 ++ l2) -> x ∈ l1 -> y ∈ l2 -> R x y.
Proof.
  induction l1 as [|z l1 IH]; simpl; intros Hs Hx Hy.
  - now apply elem_of_nil in Hx.
  - apply StronglySorted_inv in Hs as [Hs Hz].
    apply elem_of_cons in Hx as [->|Hx]; [|now apply IH].
    rewrite Forall_forall in Hz. apply Hz. apply elem_of_app. now right.
Qed.

(** The first [n] of a sorted array against the rest of it. *)
Lemma sorted_take_drop {A : Type} (cmp : A -> A -> Z) (n : nat) (l : list A) (x y : A) :
  sorted_by cmp l -> x ∈ take n l -> y ∈ drop n l -> cmp x y <= 0.
Proof.
  unfold sorted_by. intros Hs Hx Hy. rewrite <- (take_drop n l) in Hs.
  exact (StronglySorted_app_between _ _ _ _ _ Hs Hx Hy).
Qed.




(** ** Top-N selection *)






(** ** More on the scores *)

Lemma weighted_sum_mono (p q : Player) (w : list (string * Q)) :
  Forall (fun mw => 0 <= snd mw /\ metric_value p (fst mw) <= metric_value q (fst mw))%Q w ->
  (weighted_sum p w <= weighted_sum q w)%Q.
Proof.
  unfold weighted_sum. induction 1 as [|[m wt] w [Hw Hv] _ IH];
    cbn [map Qsum foldr fst snd] in *; [lra|].
  fold (Qsum (map (fun '(m, w) => (w * metric_value p m)%Q) w)) in *.
  fold (Qsum (map (fun '(m, w) => (w * metric_value q m)%Q) w)) in *.
  assert (wt * metric_value p m <= wt * metric_value q m)%Q as Hprod by nra.
  lra.
Qed.

Lemma Math_round_min_99 (s : Q) : Math_round (Qmin s 99) = Z.min 99 (Math_round s).
Proof.
  destruct (Q.min_spec s 99) as [[Hlt Hmin]|[Hle Hmin]].
  - rewrite (Math_round_comp _ _ Hmin).
    assert (Math_round s <= Math_round (inject_Z 99)) as H
      by (apply Math_round_mono; change (inject_Z 99) with 99%Q; lra).
    rewrite Math_round_Z in H. lia.
  - rewrite (Math_round_comp _ _ Hmin).
    assert (Math_round (inject_Z 99) <= Math_round s) as H
      by (apply Math_round_mono; change (inject_Z 99) with 99%Q; lra).
    change 99%Q with (inject_Z 99). rewrite Math_round_Z in *. lia.
Qed.

(** In exact arithmetic capping at 99 and rounding commute, so the role fit is the
    rounded weighted sum, except that 99 replaces anything above; and with
    non-negative weights a player whose values are at least another's on
    the template's metrics fits the role at least as well. *)
Theorem calcRoleFit_cap_and_order (p q : Player) (template : list (string * Q)) :
  calcRoleFit p template = Z.min 99 (Math_round (weighted_sum p template))
  /\ (Forall (fun mw => 0 <= snd mw
                        /\ metric_value p (fst mw) <= metric_value q (fst mw))%Q template ->
      calcRoleFit p template <= calcRoleFit q template).
Proof.
  split.
  - rewrite calcRoleFit_eq. apply Math_round_min_99.
  - intros Hall. rewrite !calcRoleFit_eq. apply Math_round_mono.
    pose proof (weighted_sum_mono p q template Hall) as Hle.
    apply Q.min_glb; [|apply Q.le_min_r].
    eapply Qle_trans; [apply Q.le_min_l | exact Hle].
Qed.

Lemma calcRoleFit_cap_and_order_witness :
  calcRoleFit ada_junior [("shots_p90", 0.20); ("xg_p90", 0.25)]%string%Q
  <= calcRoleFit ada [("shots_p90", 0.20); ("xg_p90", 0.25)]%string%Q.
Proof.
  apply (proj2 (calcRoleFit_cap_and_order ada_junior ada _)).
  forall_listed ltac:(split; by_computation).
Defined.

Lemma weighted_sum_convex (p : Player) (w : list (string * Q)) (lo hi : Q) :
  Forall (fun mw => 0 <= snd mw
                    /\ lo <= metric_value p (fst mw) /\ metric_value p (fst mw) <= hi)%Q w ->
  (lo * Qsum (map snd w) <= weighted_sum p w
   /\ weighted_sum p w <= hi * Qsum (map snd w))%Q.
Proof.
  unfold weighted_sum.
  induction 1 as [|[m wt] w (Hw & Hlo & Hhi) _ [IHlo IHhi]];
    cbn [map Qsum foldr fst snd] in *.
  - split; lra.
  - fold (Qsum (map (fun '(m, w) => (w * metric_value p m)%Q) w)) in *.
    fold (Qsum (map snd w)) in *.
    assert (wt * lo <= wt * metric_value p m)%Q as H1 by nra.
    assert (wt * metric_value p m <= wt * hi)%Q as H2 by nra.
    split; lra.
Qed.

(** The templates of [ROLES] are weighted averages over the catalog. *)
Lemma ROLES_templates :
  Forall (fun rw => Forall (fun mw => fst mw ∈ METRICS /\ (0 < snd mw)%Q) (snd rw)
                    /\ (Qsum (map snd (snd rw)) == 1)%Q) ROLES.
Proof.
  unfold ROLES.
  forall_listed ltac:(split; [forall_listed ltac:(split; [in_listed | by_computation])
                             | by_computation]).
Qed.

(** In exact arithmetic: every template of [ROLES] reads catalog metrics only, with
    positive weights that add up to 1: its weighted sum is an average, so
    it lies between any two bounds of the player's catalog metrics, and the
    role fit of a player within [0, 100] is the rounded average or 99,
    whichever is less, never negative. *)
Theorem ROLES_fit_is_weighted_average (r : string) (weights : list (string * Q))
    (p : Player) (lo hi : Q) :
  (r, weights) ∈ ROLES ->
  Forall (fun m => lo <= metric_value p m /\ metric_value p m <= hi)%Q METRICS ->
  (Qsum (map snd weights) == 1)%Q
  /\ (lo <= weighted_sum p weights /\ weighted_sum p weights <= hi)%Q
  /\ Z.min 99 (Math_round lo) <= calcRoleFit p weights <= Z.min 99 (Math_round hi).
Proof.
  intros Hin Hrange.
  pose proof ROLES_templates as Hroles. rewrite Forall_forall in Hroles.
  destruct (Hroles _ Hin) as [Hkeys Hsum]. simpl in Hkeys, Hsum.
  assert (lo <= weighted_sum p weights /\ weighted_sum p weights <= hi)%Q as [Hlo Hhi].
  { destruct (weighted_sum_convex p weights lo hi) as [H1 H2].
    - eapply Forall_impl; [exact Hkeys|]. intros [m w] [Hm Hw]. simpl in *.
      rewrite Forall_forall in Hrange. destruct (Hrange m Hm). repeat split; lra.
    - rewrite Hsum in H1, H2. split; lra. }
  split; [exact Hsum|]. split; [now split|].
  rewrite calcRoleFit_eq, Math_round_min_99.
  apply Math_round_mono in Hlo, Hhi. lia.
Qed.

Lemma ROLES_fit_is_weighted_average_witness :
  Z.min 99 (Math_round 0) <= calcRoleFit ada
    [("shot_conversion", 0.30); ("xg_p90", 0.25); ("shots_p90", 0.20);
     ("aerial_win_rate", 0.15); ("press_success", 0.10)]%string%Q
  <= Z.min 99 (Math_round 100).
Proof.
  refine (proj2 (proj2 (ROLES_fit_is_weighted_average "Poacher" _ ada 0 100 _ _))).
  - unfold ROLES. apply list_elem_of_here.
  - forall_listed ltac:(split; by_computation).
Defined.

Lemma Math_round_R_mono (v w : R) : (v <= w)%R -> Math_round_R v <= Math_round_R w.
Proof.
  intros Hle.
  destruct (Math_round_R_rounds v) as [Hlo _], (Math_round_R_rounds w) as [_ Hhi].
  assert (IZR (Math_round_R v) < IZR (Math_round_R w + 1))%R as H
    by (rewrite plus_IZR; lra).
  apply lt_IZR in H. lia.
Qed.

(** In exact arithmetic the similarity orders candidates by distance: a candidate whose
    squared distance to the reference is no larger scores no lower, so
    the most similar players are the nearest ones. *)
Theorem euclideanSimilarity_nearest_first (catalog : list string) (a b c : Player) :
  catalog <> [] ->
  (squared_distance catalog a b <= squared_distance catalog a c)%Q ->
  euclideanSimilarity catalog a c <= euclideanSimilarity catalog a b.
Proof.
  intros Hne Hle. unfold euclideanSimilarity.
  rewrite (Qeq_eqR _ _ (sum_sq_eq catalog a b)), (Qeq_eqR _ _ (sum_sq_eq catalog a c)).
  apply Math_round_R_mono.
  pose proof (Q2R_pos _ (catalog_max_pos catalog Hne)) as HM.
  pose proof (sqrt_lt_R0 _ HM) as HrootM.
  apply Qle_Rle, sqrt_le_1_alt in Hle.
  set (M := sqrt (Q2R (inject_Z (Z.of_nat (length catalog)) * 100 * 100))) in *.
  assert (0 < / M)%R as Hinv by now apply Rinv_0_lt_compat.
  unfold Rdiv. nra.
Qed.

Lemma euclideanSimilarity_nearest_first_witness :
  euclideanSimilarity METRICS ada bo <= euclideanSimilarity METRICS ada ada_junior.
Proof.
  apply euclideanSimilarity_nearest_first; [discriminate | by_computation].
Defined.

Lemma metric_mean_mono (catalog : list string) (p q : Player) :
  catalog <> [] ->
  Forall (fun m => metric_value p m <= metric_value q m)%Q catalog ->
  (metric_mean catalog p <= metric_mean catalog q)%Q.
Proof.
  intros Hne Hall. pose proof (catalog_size_pos catalog Hne) as Hn.
  unfold metric_mean.
  assert (Qsum (map (metric_value p) catalog) <= Qsum (map (metric_value q) catalog))%Q
    as Hsum.
  { clear Hn Hne. induction Hall as [|m catalog Hm _ IH]; cbn [map Qsum foldr]; [lra|].
    fold (Qsum (map (metric_value p) catalog)) in *.
    fold (Qsum (map (metric_value q) catalog)) in *. lra. }
  apply Qle_shift_div_l; [exact Hn|].
  set (n := inject_Z _) in *.
  assert (Qsum (map (metric_value p) catalog) / n * n
          == Qsum (map (metric_value p) catalog))%Q as Hcancel by (field; lra).
  rewrite Hcancel. exact Hsum.
Qed.

(** In exact arithmetic the overall rating is monotone and stays within the player's
    metrics: a player whose catalog metrics are at least another's is rated
    at least as high, and the rating lies between the roundings of any two
    bounds of the catalog metrics. *)
Theorem computeOverall_order_and_bounds (catalog : list string) (p q : Player)
    (lo hi : Q) :
  catalog <> [] ->
  (Forall (fun m => metric_value p m <= metric_value q m)%Q catalog ->
   computeOverall catalog p <= computeOverall catalog q)
  /\ (Forall (fun m => lo <= metric_value p m /\ metric_value p m <= hi)%Q catalog ->
      Math_round lo <= computeOverall catalog p <= Math_round hi).
Proof.
  intros Hne. rewrite !computeOverall_eq. split.
  - intros Hall. apply Math_round_mono. now apply metric_mean_mono.
  - intros Hrange. destruct (metric_mean_bounds lo hi catalog p Hne Hrange) as [Hlo Hhi].
    split; now apply Math_round_mono.
Qed.

Lemma computeOverall_order_and_bounds_witness :
  computeOverall METRICS ada_junior <= computeOverall METRICS ada
  /\ Math_round 0 <= computeOverall METRICS ada_junior <= Math_round 60.
Proof.
  destruct (computeOverall_order_and_bounds METRICS ada_junior ada 0 60
              ltac:(discriminate)) as [Horder Hbounds].
  split.
  - apply Horder. forall_listed by_computation.
  - apply Hbounds. forall_listed ltac:(split; by_computation).
Defined.

(** ** Initials *)

Lemma upper_char_shape (c : ascii) :
  c <> " "%char ->
  upper_char c <> " "%char /\ ~ (97 <= nat_of_ascii (upper_char c) <= 122)%nat.
Proof.
  destruct c as [[] [] [] [] [] [] [] []]; intros Hc;
    (split; [first [exact Hc | discriminate] | vm_compute; lia]).
Qed.

Lemma split_space_words (s : string) :
  split_space s <> []
  /\ Forall (fun w => forall c, first_char w = Some c -> c <> " "%char) (split_space s).
Proof.
  induction s as [|c s [Hne IH]]; simpl.
  - split; [discriminate|]. repeat constructor. discriminate.
  - destruct (Ascii.eqb_spec c " ") as [->|Hc].
    + split; [discriminate|]. constructor; [discriminate | exact IH].
    + destruct (split_space s) as [|w ws]; [contradiction|].
      split; [discriminate|]. apply Forall_cons in IH as [_ IH].
      constructor; [|exact IH]. simpl. now intros c' [= <-].
Qed.

Lemma split_space_all_empty (s : string) :
  Forall (fun w => w = EmptyString) (split_space s)
  <-> Forall (fun c => c = " "%char) (list_ascii_of_string s).
Proof.
  induction s as [|c s IH]; simpl.
  - split; intros _; repeat constructor.
  - pose proof (split_space_words s) as [Hne _].
    destruct (Ascii.eqb_spec c " ") as [->|Hc].
    + rewrite !Forall_cons, IH. tauto.
    + destruct (split_space s) as [|w ws]; [contradiction|].
      rewrite !Forall_cons. split; [intros [H _]; discriminate | tauto].
Qed.

Lemma join_chars_length (l : list (option ascii)) :
  (String.length (join_chars l) <= length l)%nat.
Proof. induction l as [|[c|] l IH]; simpl; lia. Qed.

Lemma join_chars_elem (P : ascii -> Prop) (l : list (option ascii)) :
  Forall (fun o => forall c, o = Some c -> P c) l ->
  Forall P (list_ascii_of_string (join_chars l)).
Proof.
  induction 1 as [|[c|] l Ho _ IH]; simpl; [constructor| |exact IH].
  constructor; [now apply Ho | exact IH].
Qed.

Lemma toUpperCase_chars (s : string) :
  list_ascii_of_string (toUpperCase s) = map upper_char (list_ascii_of_string s).
Proof. induction s as [|c s IH]; simpl; [reflexivity | now rewrite IH]. Qed.

Lemma toUpperCase_length (s : string) :
  String.length (toUpperCase s) = String.length s.
Proof. induction s as [|c s IH]; simpl; [reflexivity | now rewrite IH]. Qed.

Lemma kept_first_chars_nil (l : list string) :
  List.filter truthy_char (map first_char l) = [] <-> Forall (fun w => w = EmptyString) l.
Proof.
  induction l as [|[|c w] l IH]; simpl.
  - split; intros _; constructor.
  - rewrite Forall_cons, IH. tauto.
  - split; [discriminate|]. intros H. apply Forall_cons in H as [H _]. discriminate.
Qed.

Lemma join_kept_empty (l : list (option ascii)) :
  Forall (fun o => truthy_char o = true) l ->
  join_chars (slice0 2 l) = EmptyString -> l = [].
Proof.
  intros Hall. destruct l as [|[c|] l]; [reflexivity | discriminate |].
  apply Forall_cons in Hall as [H _]. discriminate.
Qed.

(** On ASCII names [initials] gives at most two characters, none of them a space or
    a lower-case letter, and gives the empty string exactly for a name made
    of spaces only (the empty name included). *)
Theorem initials_shape (name : string) :
  (String.length (initials name) <= 2)%nat
  /\ Forall (fun c => c <> " "%char /\ ~ (97 <= nat_of_ascii c <= 122)%nat)
            (list_ascii_of_string (initials name))
  /\ (initials name = EmptyString
      <-> Forall (fun c => c = " "%char) (list_ascii_of_string name)).
Proof.
  unfold initials.
  set (kept := List.filter truthy_char (map first_char (split_space name))).
  assert (Forall (fun o => truthy_char o = true
                           /\ forall c, o = Some c -> c <> " "%char) kept) as Hkept.
  { apply Forall_forall. intros o Ho. apply elem_of_List_filter in Ho as [Ho Ht].
    split; [exact Ht|]. apply list_elem_of_In, in_map_iff in Ho as (w & <- & Hw).
    destruct (split_space_words name) as [_ Hwords].
    rewrite Forall_forall in Hwords. apply Hwords. now apply list_elem_of_In. }
  split; [|split].
  - rewrite toUpperCase_length.
    etransitivity; [apply join_chars_length|]. unfold slice0. rewrite length_take. lia.
  - rewrite toUpperCase_chars. apply Forall_map.
    apply (join_chars_elem (fun c => upper_char c <> " "%char
                                     /\ ~ (97 <= nat_of_ascii (upper_char c) <= 122)%nat)).
    apply Forall_forall. intros o Ho c ->.
    apply upper_char_shape.
    pose proof (elem_of_sublist _ _ _ Ho (sublist_take _ _)) as Ho'.
    rewrite Forall_forall in Hkept. now apply (Hkept _ Ho').
  - rewrite <- split_space_all_empty, <- kept_first_chars_nil. fold kept. split.
    + intros Hempty. apply join_kept_empty.
      * eapply Forall_impl; [exact Hkept|]. now intros o [H _].
      * destruct (join_chars (slice0 2 kept)); [reflexivity | discriminate].
    + now intros ->.
Qed.

Lemma initials_shape_witness :
  initials "   " = EmptyString /\ (String.length (initials "Kevin De Bruyne") <= 2)%nat.
Proof.
  split.
  - apply (proj2 (proj2 (initials_shape "   "))). repeat constructor.
  - apply (proj1 (initials_shape "Kevin De Bruyne")).
Defined.

Example initials_examples :
  initials "Lionel Messi" = "LM"%string
  /\ initials "  kevin  de bruyne " = "KD"%string
  /\ initials "Pele" = "P"%string
  /\ initials "" = EmptyString.
Proof. repeat split. Qed.

(** ** Colours and radar axes *)

(** X8: the four bar colours are bands of the value: raising a value
    never moves it to a lower band (red below 55, amber to 70, cyan to
    85, green from 85). *)
Theorem getBarColor_monotone (v w : Q) :
  (v <= w)%Q ->
  (getBarColor v = "#b8ff57"%string -> getBarColor w = "#b8ff57"%string)
  /\ (getBarColor v = "#00e5ff"%string ->
      getBarColor w = "#00e5ff"%string \/ getBarColor w = "#b8ff57"%string)
  /\ (getBarColor v = "#ffd166"%string -> getBarColor w <> "#ff5e3a"%string)
  /\ (getBarColor w = "#ff5e3a"%string -> getBarColor v = "#ff5e3a"%string).
Proof.
  intros Hle. unfold getBarColor.
  destruct (Qle_bool 85 v) eqn:V85, (Qle_bool 70 v) eqn:V70, (Qle_bool 55 v) eqn:V55,
           (Qle_bool 85 w) eqn:W85, (Qle_bool 70 w) eqn:W70, (Qle_bool 55 w) eqn:W55;
    repeat match goal with
           | H : Qle_bool _ _ = true |- _ => apply Qle_bool_iff in H
           | H : Qle_bool _ _ = false |- _ =>
               apply not_true_iff_false in H; rewrite Qle_bool_iff in H
           end;
    try (exfalso; lra);
    repeat split; intros; first [reflexivity | discriminate | tauto].
Qed.

Lemma getBarColor_monotone_witness :
  getBarColor 90 = "#00e5ff"%string \/ getBarColor 90 = "#b8ff57"%string.
Proof.
  apply (proj1 (proj2 (getBarColor_monotone 70 90 ltac:(by_computation)))).
  reflexivity.
Defined.

Lemma getRadarValue_mean (p : Player) (axis : RadarAxis) :
  (getRadarValue p axis == metric_mean (axis_metrics axis) p)%Q.
Proof.
  unfold getRadarValue, metric_mean.
  rewrite fold_left_Qplus, Qplus_0_l, length_map.
  now rewrite (map_ext _ _ (or0_get p)).
Qed.

(** The axes of [RADAR_AXES] have metrics, all of the catalog. *)
Lemma RADAR_AXES_valid :
  Forall (fun axis => axis_metrics axis <> []
                      /\ Forall (fun m => m ∈ METRICS) (axis_metrics axis)) RADAR_AXES.
Proof.
  unfold RADAR_AXES.
  forall_listed ltac:(split; [discriminate | forall_listed in_listed]).
Qed.

(** In exact arithmetic the value of a radar axis with at least one metric lies between
    any two bounds of its metrics, and every axis of [RADAR_AXES] has a
    metric and reads the catalog only: for a player within [0, 100] every
    radar value is within [0, 100]. *)
Theorem getRadarValue_bounds (p : Player) (lo hi : Q) :
  (forall axis : RadarAxis,
     axis_metrics axis <> [] ->
     Forall (fun m => lo <= metric_value p m /\ metric_value p m <= hi)%Q
            (axis_metrics axis) ->
     (lo <= getRadarValue p axis /\ getRadarValue p axis <= hi)%Q)
  /\ (Forall (fun m => lo <= metric_value p m /\ metric_value p m <= hi)%Q METRICS ->
      Forall (fun axis => lo <= getRadarValue p axis /\ getRadarValue p axis <= hi)%Q
             RADAR_AXES).
Proof.
  assert (forall axis : RadarAxis,
            axis_metrics axis <> [] ->
            Forall (fun m => lo <= metric_value p m /\ metric_value p m <= hi)%Q
                   (axis_metrics axis) ->
            (lo <= getRadarValue p axis /\ getRadarValue p axis <= hi)%Q) as Hone.
  { intros axis Hne Hall. rewrite getRadarValue_mean.
    now apply metric_mean_bounds. }
  split; [exact Hone|]. intros Hrange.
  eapply Forall_impl; [exact RADAR_AXES_valid|]. simpl. intros axis [Hne Hkeys].
  apply Hone; [exact Hne|].
  eapply Forall_impl; [exact Hkeys|]. simpl. intros m Hm.
  rewrite Forall_forall in Hrange. now apply Hrange.
Qed.

Lemma getRadarValue_bounds_witness :
  Forall (fun axis => 0 <= getRadarValue ada axis /\ getRadarValue ada axis <= 100)%Q
         RADAR_AXES.
Proof.
  apply (proj2 (getRadarValue_bounds ada 0 100)).
  forall_listed ltac:(split; by_computation).
Defined.

(** ** Radar polygons *)

Lemma radar_val_range (p : Player) (axis : Axis) :
  Forall (fun m => 0 <= metric_value p m /\ metric_value p m <= 100)%Q METRICS ->
  match axis with
  | MetricAxis m => m ∈ METRICS
  | GroupAxis a => a ∈ RADAR_AXES
  end ->
  (0 <= radar_val p axis /\ radar_val p axis <= 1)%Q.
Proof.
  intros Hrange Haxis. destruct axis as [m|a]; simpl.
  - rewrite or0_get. rewrite Forall_forall in Hrange. destruct (Hrange m Haxis).
    split; [apply Qle_shift_div_l | apply Qle_shift_div_r]; lra.
  - pose proof RADAR_AXES_valid as Hvalid. rewrite Forall_forall in Hvalid.
    destruct (Hvalid a Haxis) as [Hne Hkeys].
    assert (0 <= getRadarValue p a /\ getRadarValue p a <= 100)%Q as [Hlo Hhi].
    { rewrite getRadarValue_mean. apply metric_mean_bounds; [exact Hne|].
      eapply Forall_impl; [exact Hkeys|]. simpl. intros m Hm.
      rewrite Forall_forall in Hrange. now apply Hrange. }
    split; [apply Qle_shift_div_l | apply Qle_shift_div_r]; lra.
Qed.

Lemma radar_points_lookup (size : Q) (axes : list Axis) (p : Player) (i : nat)
    (x y : R) :
  radar_points size axes p !! i = Some (x, y) ->
  exists axis,
    axes !! i = Some axis
    /\ x = (cos (PI * 2 / INR (length axes) * INR i - PI / 2)
            * Q2R (radar_radius size) * Q2R (radar_val p axis))%R
    /\ y = (sin (PI * 2 / INR (length axes) * INR i - PI / 2)
            * Q2R (radar_radius size) * Q2R (radar_val p axis))%R.
Proof.
  unfold radar_points. rewrite list_lookup_imap.
  destruct (axes !! i) as [axis|]; simpl; [|discriminate].
  intros [= <- <-]. now exists axis.
Qed.

(** In exact arithmetic a radar polygon has one vertex per axis, at distance
    [r * val] from the centre, the first one straight above it; when
    every [val] is within [0, 1] -- as for a player within [0, 100] on the
    axes of [RADAR_AXES] or on catalog metrics -- and the chart is at
    least 80 wide, every vertex is inside the outer ring. *)
Theorem radar_points_geometry (size : Q) (axes : list Axis) (p : Player) :
  length (radar_points size axes p) = length axes
  /\ (forall i x y,
        radar_points size axes p !! i = Some (x, y) ->
        exists axis,
          axes !! i = Some axis
          /\ (x * x + y * y
              = (Q2R (radar_radius size) * Q2R (radar_val p axis)) ^ 2)%R
          /\ (i = 0%nat ->
              x = 0%R /\ y = (- (Q2R (radar_radius size) * Q2R (radar_val p axis)))%R))
  /\ ((80 <= size)%Q ->
      Forall (fun m => 0 <= metric_value p m /\ metric_value p m <= 100)%Q METRICS ->
      Forall (fun axis => match axis with
                          | MetricAxis m => m ∈ METRICS
                          | GroupAxis a => a ∈ RADAR_AXES
                          end) axes ->
      Forall (fun pt => (fst pt * fst pt + snd pt * snd pt
                         <= Q2R (radar_radius size) ^ 2)%R)
             (radar_points size axes p)).
Proof.
  split; [unfold radar_points; apply length_imap|]. split.
  - intros i x y Hpt.
    apply radar_points_lookup in Hpt as (axis & Haxis & -> & ->).
    exists axis. split; [exact Haxis|]. split.
    + set (angle := (PI * 2 / INR (length axes) * INR i - PI / 2)%R).
      pose proof (sin2_cos2 angle) as Hone. unfold Rsqr in Hone. nra.
    + intros ->. simpl INR. rewrite Rmult_0_r.
      replace (0 - PI / 2)%R with (- (PI / 2))%R by ring.
      rewrite cos_neg, sin_neg, cos_PI2, sin_PI2. split; ring.
  - intros Hsize Hrange Haxes. apply Forall_forall. intros [x y] Hpt. simpl.
    apply list_elem_of_lookup in Hpt as [i Hpt].
    apply radar_points_lookup in Hpt as (axis & Haxis & -> & ->).
    assert (axis ∈ axes) as Hin by (apply list_elem_of_lookup; eauto).
    rewrite Forall_forall in Haxes.
    destruct (radar_val_range p axis Hrange (Haxes axis Hin)) as [Hlo Hhi].
    apply Qle_Rle in Hlo, Hhi. rewrite RMicromega.Q2R_0 in Hlo.
    rewrite RMicromega.Q2R_1 in Hhi.
    assert (0 <= Q2R (radar_radius size))%R as Hr.
    { rewrite <- RMicromega.Q2R_0. apply Qle_Rle. unfold radar_radius.
      apply Qle_shift_div_l; lra. }
    set (angle := (PI * 2 / INR (length axes) * INR i - PI / 2)%R).
    pose proof (sin2_cos2 angle) as Hone. unfold Rsqr in Hone.
    set (r := Q2R (radar_radius size)) in *. set (v := Q2R (radar_val p axis)) in *.
    assert (cos angle * r * v * (cos angle * r * v) + sin angle * r * v * (sin angle * r * v)
            = (r * v) ^ 2)%R as -> by nra.
    assert (0 <= r * v)%R by nra. assert (r * v <= r)%R by nra. nra.
Qed.

Lemma radar_points_geometry_witness :
  Forall (fun pt => (fst pt * fst pt + snd pt * snd pt <= Q2R (radar_radius 200) ^ 2)%R)
         (radar_points 200 (map GroupAxis RADAR_AXES) ada).
Proof.
  apply (proj2 (proj2 (radar_points_geometry 200 (map GroupAxis RADAR_AXES) ada))).
  - by_computation.
  - forall_listed ltac:(split; by_computation).
  - unfold RADAR_AXES. forall_listed in_listed.
Defined.

(** ** Overview *)

Lemma Number_sign_nonpos (x : Q) : Number_sign x <= 0 <-> (x <= 0)%Q.
Proof.
  unfold Number_sign, Qle. simpl. rewrite Z.mul_1_r.
  destruct (Qnum x); simpl; lia.
Qed.

Lemma by_value_sorted (p : Player) (catalog : list string) :
  sorted_by (fun a b => Number_sign (or0 (get p b) - or0 (get p a)))
    (Array_sort (fun a b => Number_sign (or0 (get p b) - or0 (get p a))) catalog).
Proof.
  apply Array_sort_sorted.
  - intros x y. rewrite !Number_sign_nonpos.
    destruct (Qlt_le_dec (or0 (get p x)) (or0 (get p y))); [right | left]; lra.
  - intros x y z. rewrite !Number_sign_nonpos. lra.
Qed.

Lemma drop_sublist_drop {A : Type} (i j : nat) (l : list A) :
  (i <= j)%nat -> drop j l `sublist_of` drop i l.
Proof.
  intros Hij. replace j with (i + (j - i))%nat by lia.
  rewrite <- drop_drop. apply sublist_drop.
Qed.

(** X11: the overview tags the [min 5 n] strongest and the [min 3 n]
    weakest of the [n] catalog metrics: a metric that is not tagged strong
    is no higher than any that is, and one not tagged weak is no lower than
    any that is.  With at least 8 metrics every strong tag is at least as
    high as every weak tag, and with distinct metrics no metric gets both
    tags. *)
Theorem renderOverview_tags (catalog : list string) (PLAYERS : list Player)
    (overview_select : nat) (p : Player) :
  PLAYERS !! overview_select = Some p ->
  exists view,
    renderOverview catalog PLAYERS overview_select = Some view
    /\ length (top5 view) = min 5 (length catalog)
    /\ length (bot3 view) = min 3 (length catalog)
    /\ (forall m, m ∈ top5 view \/ m ∈ bot3 view -> m ∈ catalog)
    /\ (forall m, m ∈ catalog ->
          m ∈ top5 view
          \/ Forall (fun t => metric_value p m <= metric_value p t)%Q (top5 view))
    /\ (forall m, m ∈ catalog ->
          m ∈ bot3 view
          \/ Forall (fun b => metric_value p b <= metric_value p m)%Q (bot3 view))
    /\ ((8 <= length catalog)%nat ->
        (forall t b, t ∈ top5 view -> b ∈ bot3 view ->
                     (metric_value p b <= metric_value p t)%Q)
        /\ (NoDup catalog -> forall t, t ∈ top5 view -> t ∉ bot3 view)).
Proof.
  intros Hp. unfold renderOverview. rewrite Hp. eexists. split; [reflexivity|].
  cbn [top5 bot3]. unfold slice0, slice_last.
  set (cmp := fun a b => Number_sign (or0 (get p b) - or0 (get p a))).
  pose proof (by_value_sorted p catalog) as Hsorted. fold cmp in Hsorted.
  pose proof (Array_sort_perm cmp catalog) as Hperm.
  pose proof (Permutation_length Hperm) as Hlen.
  set (sorted := Array_sort cmp catalog) in *.
  assert (forall x y, cmp x y <= 0 <-> (metric_value p y <= metric_value p x)%Q) as Hcmp.
  { intros x y. unfold cmp. rewrite Number_sign_nonpos, !or0_get. split; lra. }
  split; [rewrite length_take; lia|]. split; [rewrite length_drop; lia|].
  split; [|split; [|split; [|intros Hn; split]]].
  - intros m [Hm|Hm]; rewrite <- Hperm.
    + exact (elem_of_sublist _ _ _ Hm (sublist_take _ _)).
    + exact (elem_of_sublist _ _ _ Hm (sublist_drop _ _)).
  - intros m Hm. rewrite <- Hperm, <- (take_drop 5 sorted) in Hm.
    apply elem_of_app in Hm as [Hm|Hm]; [now left | right].
    apply Forall_forall. intros t Ht. apply Hcmp.
    exact (sorted_take_drop cmp 5 sorted t m Hsorted Ht Hm).
  - intros m Hm.
    rewrite <- Hperm, <- (take_drop (length sorted - 3) sorted) in Hm.
    apply elem_of_app in Hm as [Hm|Hm]; [right | now left].
    apply Forall_forall. intros b Hb. apply Hcmp.
    exact (sorted_take_drop cmp _ sorted m b Hsorted Hm Hb).
  - intros t b Ht Hb. apply Hcmp.
    apply (sorted_take_drop cmp 5 sorted t b Hsorted Ht).
    apply (elem_of_sublist _ _ _ Hb). apply drop_sublist_drop. lia.
  - intros Hnodup t Ht Hb.
    rewrite <- Hperm, <- (take_drop 5 sorted) in Hnodup.
    apply NoDup_app in Hnodup as (_ & Hdisj & _). apply (Hdisj t Ht).
    apply (elem_of_sublist _ _ _ Hb). apply drop_sublist_drop. lia.
Qed.

Lemma renderOverview_tags_witness :
  exists view,
    renderOverview METRICS squad 0 = Some view
    /\ length (top5 view) = 5%nat
    /\ length (bot3 view) = 3%nat
    /\ (forall t, t ∈ top5 view -> t ∉ bot3 view).
Proof.
  destruct (renderOverview_tags METRICS squad 0 ada eq_refl)
    as (view & Hrun & Htop & Hbot & _ & _ & _ & Hsplit).
  exists view. split; [exact Hrun|]. split; [exact Htop|]. split; [exact Hbot|].
  apply Hsplit; [vm_compute; lia|].
  apply (bool_decide_unpack (NoDup METRICS)). vm_compute. exact I.
Defined.

(** ** The best role *)

Lemma sort_insert_ext {A : Type} (cmp1 cmp2 : A -> A -> Z) (x : A) (l : list A) :
  (forall a b, cmp1 a b = cmp2 a b) -> sort_insert cmp1 x l = sort_insert cmp2 x l.
Proof.
  intros Hext. induction l as [|y l IH]; simpl; [reflexivity|].
  rewrite Hext. now rewrite IH.
Qed.

Lemma Array_sort_ext {A : Type} (cmp1 cmp2 : A -> A -> Z) (l : list A) :
  (forall a b, cmp1 a b = cmp2 a b) -> Array_sort cmp1 l = Array_sort cmp2 l.
Proof.
  intros Hext. induction l as [|x l IH]; simpl; [reflexivity|].
  now rewrite IH, (sort_insert_ext cmp1 cmp2).
Qed.

(** The roles sorted as pairs, by the fit of player [p]. *)
Lemma fits_of_sorted_roles (p : Player) :
  Array_sort (fun a b => role_fit b - role_fit a)
    (map (fun '(r, weights) => {| role := r; role_fit := calcRoleFit p weights |}) ROLES)
  = map (fun '(r, weights) => {| role := r; role_fit := calcRoleFit p weights |})
      (Array_sort (by_key_desc (fun rw => calcRoleFit p (snd rw))) ROLES).
Proof.
  rewrite <- Array_sort_map. f_equal. apply Array_sort_ext.
  intros [r1 w1] [r2 w2]. reflexivity.
Qed.


Lemma ROLES_lookup_elem (roles : list (string * list (string * Q))) (r : string)
    (w : list (string * Q)) :
  ROLES_lookup roles r = Some w -> (r, w) ∈ roles.
Proof.
  induction roles as [|[k w'] roles IH]; simpl; [discriminate|].
  destruct (String.eqb_spec k r) as [->|Hne].
  - intros [= ->]. apply list_elem_of_here.
  - intros H. apply list_elem_of_further. now apply IH.
Qed.

Lemma ROLES_lookup_NoDup (roles : list (string * list (string * Q))) (r : string)
    (w : list (string * Q)) :
  NoDup (map fst roles) -> (r, w) ∈ roles -> ROLES_lookup roles r = Some w.
Proof.
  induction roles as [|[k w'] roles IH]; simpl; intros Hnodup Hin.
  - now apply elem_of_nil in Hin.
  - apply NoDup_cons in Hnodup as [Hk Hnodup].
    destruct (String.eqb_spec k r) as [->|Hne].
    + apply elem_of_cons in Hin as [[= ->]|Hin]; [reflexivity|].
      exfalso. apply Hk. apply list_elem_of_In, in_map_iff. exists (r, w).
      split; [reflexivity | now apply list_elem_of_In].
    + apply elem_of_cons in Hin as [[= -> ->]|Hin]; [congruence | now apply IH].
Qed.



(** What [renderRoleFit] renders, with the roles sorted as pairs. *)
Lemma renderRoleFit_view (PLAYERS : list Player) (role_select : nat) (p : Player) :
  PLAYERS !! role_select = Some p ->
  exists rb wb rest,
    Array_sort (by_key_desc (fun rw => calcRoleFit p (snd rw))) ROLES = (rb, wb) :: rest
    /\ renderRoleFit PLAYERS role_select
       = Normal (Some
           {| view_fits :=
                map (fun '(r, weights) => {| role := r; role_fit := calcRoleFit p weights |})
                  ((rb, wb) :: rest);
              view_best := {| role := rb; role_fit := calcRoleFit p wb |};
              view_leaderboard := leaderboard PLAYERS wb |}).
Proof.
  intros Hp. unfold renderRoleFit. rewrite Hp, fits_of_sorted_roles.
  pose proof (Array_sort_perm (by_key_desc (fun rw => calcRoleFit p (snd rw))) ROLES)
    as Hperm.
  destruct (Array_sort _ ROLES) as [|[rb wb] rest] eqn:Hsort.
  - apply Permutation_nil_l in Hperm. discriminate.
  - exists rb, wb, rest. split; [reflexivity|]. cbn [map role].
    assert ((rb, wb) ∈ ROLES) as Hin by (rewrite <- Hperm; apply list_elem_of_here).
    rewrite (ROLES_lookup_NoDup ROLES rb wb); [reflexivity | | exact Hin].
    apply (bool_decide_unpack (NoDup (map fst ROLES))). vm_compute. exact I.
Qed.



(** X13: the three roles on the overview are the first three of the
    role-fit page for the same player, with the same scores, so the
    overview's first role is that page's best role. *)
Theorem renderOverview_suitability (catalog : list string) (PLAYERS : list Player)
    (select : nat) (p : Player) :
  PLAYERS !! select = Some p ->
  exists overview rolefit,
    renderOverview catalog PLAYERS select = Some overview
    /\ renderRoleFit PLAYERS select = Normal (Some rolefit)
    /\ suitability overview
       = map (fun f => (role f, role_fit f)) (take 3 (view_fits rolefit))
    /\ hd_error (suitability overview)
       = Some (role (view_best rolefit), role_fit (view_best rolefit))
    /\ length (suitability overview) = 3%nat.
Proof.
  intros Hp. destruct (renderRoleFit_view PLAYERS select p Hp)
    as (rb & wb & rest & Hsort & Hrun).
  unfold renderOverview. rewrite Hp. eexists _, _.
  split; [reflexivity|]. split; [exact Hrun|].
  cbn [suitability view_fits view_best role role_fit]. unfold slice0.
  assert (Array_sort (fun a b => calcRoleFit p (snd b) - calcRoleFit p (snd a)) ROLES
          = (rb, wb) :: rest) as -> by exact Hsort.
  assert (length ((rb, wb) :: rest) = 7%nat) as Hlen.
  { rewrite <- Hsort. now rewrite (Permutation_length (Array_sort_perm _ _)). }
  split; [|split].
  - rewrite firstn_map, map_map. apply map_ext. now intros [r w].
  - reflexivity.
  - rewrite length_map, length_take, Hlen. reflexivity.
Qed.

Lemma renderOverview_suitability_witness :
  exists overview rolefit,
    renderOverview METRICS squad 0 = Some overview
    /\ renderRoleFit squad 0 = Normal (Some rolefit)
    /\ suitability overview
       = map (fun f => (role f, role_fit f)) (take 3 (view_fits rolefit))
    /\ hd_error (suitability overview)
       = Some (role (view_best rolefit), role_fit (view_best rolefit))
    /\ length (suitability overview) = 3%nat.
Proof. exact (renderOverview_suitability METRICS squad 0 ada eq_refl). Defined.

(** ** Comparison *)

Lemma number_gt_iff (x y : Q) : number_gt x y = true <-> (y < x)%Q.
Proof.
  unfold number_gt. rewrite negb_true_iff, <- not_true_iff_false, Qle_bool_iff.
  split; [apply Qnot_le_lt | apply Qlt_not_le].
Qed.

Lemma lead_counts_acc (catalog : list string) (a b : Player) (aw bw : Z) :
  fold_left
    (fun '(aWins, bWins) m =>
       if number_gt (or0 (get a m)) (or0 (get b m)) then (aWins + 1, bWins)
       else if number_gt (or0 (get b m)) (or0 (get a m)) then (aWins, bWins + 1)
       else (aWins, bWins))
    catalog (aw, bw)
  = (aw + Z.of_nat (length (List.filter
                              (fun m => number_gt (or0 (get a m)) (or0 (get b m))) catalog)),
     bw + Z.of_nat (length (List.filter
                              (fun m => number_gt (or0 (get b m)) (or0 (get a m))) catalog))).
Proof.
  revert aw bw. induction catalog as [|m catalog IH]; intros aw bw; simpl.
  - f_equal; lia.
  - destruct (number_gt (or0 (get a m)) (or0 (get b m))) eqn:Hab.
    + assert (number_gt (or0 (get b m)) (or0 (get a m)) = false) as ->.
      { apply not_true_iff_false. rewrite number_gt_iff. apply number_gt_iff in Hab. lra. }
      rewrite IH. simpl length. f_equal; lia.
    + destruct (number_gt (or0 (get b m)) (or0 (get a m))); rewrite IH; simpl length;
        f_equal; lia.
Qed.

Lemma lead_counts_eq (catalog : list string) (a b : Player) :
  lead_counts catalog a b
  = (Z.of_nat (length (List.filter
                         (fun m => number_gt (or0 (get a m)) (or0 (get b m))) catalog)),
     Z.of_nat (length (List.filter
                         (fun m => number_gt (or0 (get b m)) (or0 (get a m))) catalog))).
Proof. unfold lead_counts. now rewrite lead_counts_acc. Qed.

Lemma exclusive_filters_length {A : Type} (f g : A -> bool) (l : list A) :
  (forall x, f x = true -> g x = false) ->
  (length (List.filter f l) + length (List.filter g l) <= length l)%nat.
Proof.
  intros Hfg. induction l as [|x l IH]; simpl; [lia|].
  destruct (f x) eqn:Hf; [rewrite (Hfg x Hf)|destruct (g x)]; simpl; lia.
Qed.

Lemma filter_length_le {A : Type} (f g : A -> bool) (l : list A) :
  (forall x, f x = true -> g x = true) ->
  (length (List.filter f l) <= length (List.filter g l))%nat.
Proof.
  intros Hfg. induction l as [|x l IH]; simpl; [lia|].
  destruct (f x) eqn:Hf; [rewrite (Hfg x Hf)|destruct (g x)]; simpl; lia.
Qed.

Lemma filter_none_length {A : Type} (f : A -> bool) (l : list A) :
  Forall (fun x => f x = false) l -> length (List.filter f l) = 0%nat.
Proof. induction 1 as [|x l Hx _ IH]; simpl; [reflexivity | now rewrite Hx]. Qed.

(** X14: the verdict of the comparison counts, for each player, the
    catalog metrics on which that player is strictly higher (absent
    counting as 0).  The two counts add up to at most the number of
    metrics, swapping the players swaps the counts, and two players that
    agree on the catalog lead on nothing. *)
Theorem renderCompare_verdict (catalog : list string) (PLAYERS : list Player)
    (compare_a compare_b : nat) (a b : Player) :
  PLAYERS !! compare_a = Some a ->
  PLAYERS !! compare_b = Some b ->
  exists view swapped,
    renderCompare catalog PLAYERS compare_a compare_b = Some view
    /\ renderCompare catalog PLAYERS compare_b compare_a = Some swapped
    /\ aWins view
       = Z.of_nat (length (List.filter
                             (fun m => number_gt (or0 (get a m)) (or0 (get b m))) catalog))
    /\ bWins view
       = Z.of_nat (length (List.filter
                             (fun m => number_gt (or0 (get b m)) (or0 (get a m))) catalog))
    /\ 0 <= aWins view /\ 0 <= bWins view
    /\ aWins view + bWins view <= Z.of_nat (length catalog)
    /\ aWins swapped = bWins view /\ bWins swapped = aWins view
    /\ (agree_on catalog a b -> aWins view = 0 /\ bWins view = 0).
Proof.
  intros Ha Hb. unfold renderCompare. rewrite Ha, Hb, !lead_counts_eq.
  eexists _, _. split; [reflexivity|]. split; [reflexivity|].
  cbn [aWins bWins]. repeat split; try lia.
  - pose proof (exclusive_filters_length
                  (fun m => number_gt (or0 (get a m)) (or0 (get b m)))
                  (fun m => number_gt (or0 (get b m)) (or0 (get a m))) catalog) as H.
    assert (forall m, number_gt (or0 (get a m)) (or0 (get b m)) = true ->
                      number_gt (or0 (get b m)) (or0 (get a m)) = false) as Hex.
    { intros m Hm. apply not_true_iff_false. rewrite number_gt_iff.
      apply number_gt_iff in Hm. lra. }
    specialize (H Hex). lia.
  - rewrite filter_none_length; [reflexivity|].
    eapply Forall_impl; [exact H|]. simpl. intros m Hm.
    apply not_true_iff_false. rewrite number_gt_iff, !or0_get. lra.
  - rewrite filter_none_length; [reflexivity|].
    eapply Forall_impl; [exact H|]. simpl. intros m Hm.
    apply not_true_iff_false. rewrite number_gt_iff, !or0_get. lra.
Qed.

Lemma renderCompare_verdict_witness :
  exists view swapped,
    renderCompare METRICS squad 0 1 = Some view
    /\ renderCompare METRICS squad 1 0 = Some swapped
    /\ aWins view + bWins view <= Z.of_nat (length METRICS)
    /\ aWins swapped = bWins view /\ bWins swapped = aWins view.
Proof.
  destruct (renderCompare_verdict METRICS squad 0 1 ada bo eq_refl eq_refl)
    as (view & swapped & H1 & H2 & _ & _ & _ & _ & Hsum & Hs1 & Hs2 & _).
  exists view, swapped. repeat split; assumption.
Defined.

Lemma toFixed1_spec (x : Q) :
  (- (1 # 20) <= toFixed1 x - x /\ toFixed1 x - x <= 1 # 20)%Q
  /\ (0 < toFixed1 x -> 1 # 20 <= x)%Q
  /\ (toFixed1 x < 0 -> x <= - (1 # 20))%Q
  /\ (toFixed1 x == 0 -> - (1 # 20) < x /\ x < 1 # 20)%Q.
Proof.
  unfold toFixed1. destruct (Qle_bool 0 x) eqn:Hsign.
  - apply Qle_bool_iff in Hsign.
    destruct (Math_round_rounds (x * 10)) as [Hlo Hhi].
    set (z := Math_round (x * 10)) in *.
    assert (0 <= z) as Hz.
    { assert (inject_Z (-1) < inject_Z z)%Q as H
        by (change (inject_Z (-1)) with (-1)%Q; lra).
      rewrite <- Zlt_Qlt in H. lia. }
    assert (inject_Z 0 <= inject_Z z)%Q as Hz' by (now rewrite <- Zle_Qle).
    change (inject_Z 0) with 0%Q in Hz'.
    assert (inject_Z z / 10 == inject_Z z * (1 # 10))%Q as -> by (field).
    split; [split; lra|]. split; [|split; [intros; lra | intros; split; lra]].
    intros Hpos. assert (inject_Z 0 < inject_Z z)%Q as H
      by (change (inject_Z 0) with 0%Q; lra).
    rewrite <- Zlt_Qlt in H.
    assert (inject_Z 1 <= inject_Z z)%Q as H1 by (rewrite <- Zle_Qle; lia).
    change (inject_Z 1) with 1%Q in H1. lra.
  - apply not_true_iff_false in Hsign. rewrite Qle_bool_iff in Hsign.
    apply Qnot_le_lt in Hsign.
    destruct (Math_round_rounds (- x * 10)) as [Hlo Hhi].
    set (z := Math_round (- x * 10)) in *.
    assert (inject_Z z / 10 == inject_Z z * (1 # 10))%Q as -> by (field).
    assert (0 <= z) as Hz.
    { assert (inject_Z (-1) < inject_Z z)%Q as H
        by (change (inject_Z (-1)) with (-1)%Q; lra).
      rewrite <- Zlt_Qlt in H. lia. }
    assert (inject_Z 0 <= inject_Z z)%Q as Hz' by (now rewrite <- Zle_Qle).
    change (inject_Z 0) with 0%Q in Hz'.
    split; [split; lra|]. split; [intros; lra|]. split; [|intros; split; lra].
    intros Hneg. assert (inject_Z 0 < inject_Z z)%Q as H
      by (change (inject_Z 0) with 0%Q; lra).
    rewrite <- Zlt_Qlt in H.
    assert (inject_Z 1 <= inject_Z z)%Q as H1 by (rewrite <- Zle_Qle; lia).
    change (inject_Z 1) with 1%Q in H1. lra.
Qed.

Lemma diff_row_spec (a b : Player) (attr : string) :
  let row := diff_row a b attr in
  let d := (metric_value a attr - metric_value b attr)%Q in
  ((- (1 # 20) <= row_diff row - d /\ row_diff row - d <= 1 # 20)%Q)
  /\ (row_class row = "diff-pos"%string /\ row_tag row = first_name (name a)
      /\ (1 # 20 <= d)%Q
      \/ row_class row = "diff-neg"%string /\ row_tag row = first_name (name b)
         /\ (d <= - (1 # 20))%Q
      \/ row_class row = "diff-neu"%string /\ row_tag row = "EQUAL"%string
         /\ (- (1 # 20) < d /\ d < 1 # 20)%Q).
Proof.
  intros row d. unfold row, diff_row. cbn [row_diff row_class row_tag].
  rewrite !or0_get. fold d.
  destruct (toFixed1_spec d) as (Herr & Hpos & Hneg & Hzero).
  split; [exact Herr|].
  destruct (number_gt (toFixed1 d) 0) eqn:Hgt.
  - left. apply number_gt_iff in Hgt. auto.
  - destruct (number_gt 0 (toFixed1 d)) eqn:Hlt.
    + right; left. apply number_gt_iff in Hlt. auto.
    + right; right. apply not_true_iff_false in Hgt, Hlt.
      rewrite number_gt_iff in Hgt, Hlt.
      split; [reflexivity|]. split; [reflexivity|]. apply Hzero. lra.
Qed.

(** In exact arithmetic the difference table has one row per catalog metric.  Its
    [diff] is within 0.05 of the true difference; a row is marked for a
    player only when that player is higher by at least 0.05, and marked
    EQUAL exactly when the two values differ by less than 0.05.  So every
    row marked for a player is a metric counted in that player's lead, but
    a lead of less than 0.05 is counted in the verdict and shown as EQUAL
    in the table. *)
Theorem renderCompare_table (catalog : list string) (PLAYERS : list Player)
    (compare_a compare_b : nat) (a b : Player) :
  PLAYERS !! compare_a = Some a ->
  PLAYERS !! compare_b = Some b ->
  exists view,
    renderCompare catalog PLAYERS compare_a compare_b = Some view
    /\ map row_attr (diff_rows view) = catalog
    /\ Forall (fun row =>
         let d := (metric_value a (row_attr row) - metric_value b (row_attr row))%Q in
         (- (1 # 20) <= row_diff row - d /\ row_diff row - d <= 1 # 20)%Q
         /\ (row_class row = "diff-pos"%string /\ row_tag row = first_name (name a)
             /\ (1 # 20 <= d)%Q
             \/ row_class row = "diff-neg"%string /\ row_tag row = first_name (name b)
                /\ (d <= - (1 # 20))%Q
             \/ row_class row = "diff-neu"%string /\ row_tag row = "EQUAL"%string
                /\ (- (1 # 20) < d /\ d < 1 # 20)%Q)) (diff_rows view)
    /\ Z.of_nat (length (List.filter (fun row => String.eqb (row_class row) "diff-pos")
                           (diff_rows view))) <= aWins view
    /\ Z.of_nat (length (List.filter (fun row => String.eqb (row_class row) "diff-neg")
                           (diff_rows view))) <= bWins view.
Proof.
  intros Ha Hb. unfold renderCompare. rewrite Ha, Hb, lead_counts_eq.
  eexists. split; [reflexivity|]. cbn [diff_rows aWins bWins].
  split; [|split; [|split]].
  - rewrite map_map. simpl. apply map_id.
  - apply Forall_map, Forall_forall. intros attr _. apply (diff_row_spec a b attr).
  - apply inj_le. rewrite <- (length_map (diff_row a b) (List.filter _ catalog)).
    assert (forall l, (length (List.filter (fun row => String.eqb (row_class row) "diff-pos")
                         (map (diff_row a b) l))
               <= length (List.filter
                            (fun m => number_gt (or0 (get a m)) (or0 (get b m))) l))%nat)
      as Hcount.
    { induction l as [|m l IH]; [simpl; lia|]. cbn [map List.filter].
      destruct (diff_row_spec a b m) as [_ [(Hc & _ & Hd)|[(Hc & _ & Hd)|(Hc & _ & Hd)]]];
        rewrite Hc; cbn [String.eqb Ascii.eqb Bool.eqb length].
      - assert (number_gt (or0 (get a m)) (or0 (get b m)) = true) as ->
          by (apply number_gt_iff; rewrite !or0_get; lra).
        simpl. lia.
      - destruct (number_gt _ _); simpl; lia.
      - destruct (number_gt _ _); simpl; lia. }
    rewrite length_map. apply Hcount.
  - apply inj_le.
    assert (forall l, (length (List.filter (fun row => String.eqb (row_class row) "diff-neg")
                         (map (diff_row a b) l))
               <= length (List.filter
                            (fun m => number_gt (or0 (get b m)) (or0 (get a m))) l))%nat)
      as Hcount.
    { induction l as [|m l IH]; [simpl; lia|]. cbn [map List.filter].
      destruct (diff_row_spec a b m) as [_ [(Hc & _ & Hd)|[(Hc & _ & Hd)|(Hc & _ & Hd)]]];
        rewrite Hc; cbn [String.eqb Ascii.eqb Bool.eqb length].
      - destruct (number_gt _ _); simpl; lia.
      - assert (number_gt (or0 (get b m)) (or0 (get a m)) = true) as ->
          by (apply number_gt_iff; rewrite !or0_get; lra).
        simpl. lia.
      - destruct (number_gt _ _); simpl; lia. }
    apply Hcount.
Qed.

Lemma renderCompare_table_witness :
  exists view,
    renderCompare METRICS squad 0 1 = Some view
    /\ map row_attr (diff_rows view) = METRICS
    /\ Z.of_nat (length (List.filter (fun row => String.eqb (row_class row) "diff-pos")
                           (diff_rows view))) <= aWins view.
Proof.
  destruct (renderCompare_table METRICS squad 0 1 ada bo eq_refl eq_refl)
    as (view & Hrun & Hattr & _ & Hpos & _).
  exists view. repeat split; assumption.
Defined.

(** A lead of 0.04 on one metric: counted in the verdict, EQUAL in the
    table. *)
Example renderCompare_small_lead :
  option_map (fun view => (aWins view, bWins view,
                           map row_tag (List.filter
                                          (fun row => negb (String.eqb (row_tag row) "EQUAL"))
                                          (diff_rows view))))
             (renderCompare METRICS [bo; bo_plus] 0 1)
  = Some (0, 1, []).
Proof. reflexivity. Qed.

(** ** Binary64: symmetry, self-similarity, dependence *)

Lemma binary_round_aux_opp (s : bool) (m e : Z) (l : location) :
  binary_round_aux Binary64.prec Binary64.emax (negb s) m e l
  = SFopp (binary_round_aux Binary64.prec Binary64.emax s m e l).
Proof.
  unfold binary_round_aux.
  destruct (shr_fexp Binary64.prec Binary64.emax m e l) as [mrs1 e1].
  destruct (shr_fexp _ _ _ e1 loc_Exact) as [mrs2 e2].
  destruct (shr_m mrs2); try reflexivity.
  destruct (e2 <=? Binary64.emax - Binary64.prec); reflexivity.
Qed.

Lemma binary_normalize_opp (m e : Z) :
  m <> 0 ->
  binary_normalize Binary64.prec Binary64.emax (- m) e false
  = SFopp (binary_normalize Binary64.prec Binary64.emax m e false).
Proof.
  intros Hm. destruct m as [|p|p]; [contradiction| |]; simpl; unfold binary_round;
    destruct (shl_align p e _) as [mz ez].
  - apply (binary_round_aux_opp false).
  - apply (binary_round_aux_opp true).
Qed.

(** [y - x] is [-(x - y)], or both are [+0]. *)
Lemma sub_swap (x y : Binary64.num) :
  Binary64.sub y x = SFopp (Binary64.sub x y)
  \/ (Binary64.sub x y = S754_zero false /\ Binary64.sub y x = S754_zero false).
Proof.
  destruct x as [sx|sx| |sx mx ex], y as [sy|sy| |sy my ey];
    try (unfold Binary64.sub; cbn [SFsub SFopp];
         destruct sx, sy; cbn [negb];
         first [left; reflexivity | right; split; reflexivity]);
    try (unfold Binary64.sub; cbn [SFsub SFopp];
         first [destruct sx | destruct sy | idtac]; cbn [negb];
         first [left; reflexivity | right; split; reflexivity]).
  unfold Binary64.sub, SFsub. rewrite (Z.min_comm ey ex).
  set (ez := Z.min ex ey).
  set (zx := cond_Zopp sx (Zpos (fst (shl_align mx ex ez)))).
  set (zy := cond_Zopp sy (Zpos (fst (shl_align my ey ez)))).
  destruct (Z.eq_dec (zx - zy) 0) as [H0|H0].
  - right. replace (zy - zx) with 0 by lia. rewrite H0. split; reflexivity.
  - left. replace (zy - zx) with (- (zx - zy)) by lia.
    now apply binary_normalize_opp.
Qed.

Lemma mul_opp_opp (x : Binary64.num) :
  Binary64.mul (SFopp x) (SFopp x) = Binary64.mul x x.
Proof. destruct x as [[|]|[|]| |[|] m e]; reflexivity. Qed.

Lemma square_sub_swap (x y : Binary64.num) :
  Binary64.Math_pow2 (Binary64.sub x y) = Binary64.Math_pow2 (Binary64.sub y x).
Proof.
  unfold Binary64.Math_pow2.
  destruct (sub_swap x y) as [-> | [-> ->]]; [|reflexivity].
  now rewrite mul_opp_opp.
Qed.

Lemma sum_sq_binary64_sym (catalog : list string) (a b : Player) :
  Binary64.sum_sq catalog a b = Binary64.sum_sq catalog b a.
Proof.
  unfold Binary64.sum_sq. generalize (Binary64.of_Z 0).
  induction catalog as [|m catalog IH]; intros acc; simpl; [reflexivity|].
  rewrite square_sub_swap. apply IH.
Qed.

Lemma sub_self (x : Binary64.num) :
  Binary64.finite x -> Binary64.sub x x = S754_zero false.
Proof.
  destruct x as [s|s| |s m e]; try contradiction; intros _.
  - now destruct s.
  - unfold Binary64.sub, SFsub. now rewrite Z.sub_diag.
Qed.

(** The largest distance is a positive number. *)
Lemma maxDist_binary64_positive (n : nat) :
  (1 <= n <= 1000)%nat ->
  exists (m : positive) (e : Z),
    Binary64.Math_sqrt
      (Binary64.mul (Binary64.mul (Binary64.of_Z (Z.of_nat n)) (Binary64.of_Z 100))
                    (Binary64.of_Z 100))
    = S754_finite false m e.
Proof.
  intros Hn.
  destruct (max_square_binary64 n Hn) as (un & Hun & Hun1 & Hun2).
  assert (1 <= inject_Z (Z.of_nat n) /\ inject_Z (Z.of_nat n) <= 1000)%Q as [Hn1 Hn2].
  { split; [change 1%Q with (inject_Z 1) | change 1000%Q with (inject_Z 1000)];
      rewrite <- Zle_Qle; lia. }
  assert (0 < un)%Q as Hun0 by lra.
  destruct (to_Q_positive _ _ Hun Hun0) as (mn & en & Hneq & _).
  assert (Binary64.nonneg
            (Binary64.mul (Binary64.mul (Binary64.of_Z (Z.of_nat n)) (Binary64.of_Z 100))
                          (Binary64.of_Z 100))) as Hnn by (rewrite Hneq; exact I).
  pose proof err_4096 as He.
  destruct (sqrt_value _ un 4096 Hun Hnn ltac:(lra) ltac:(lra)
              ltac:(vm_compute; discriminate)) as (um & Hum & Hum1 & _).
  assert (1 <= sqrt (Q2R un))%R as Hroot.
  { rewrite <- sqrt_1 at 1. apply sqrt_le_1_alt.
    replace 1%R with (Q2R 1) by (unfold Q2R; simpl; field). apply Qle_Rle. lra. }
  apply Qle_Rle in He.
  replace (Q2R (1 # 1000000000)) with (/ 1000000000)%R in He by (unfold Q2R; simpl; field).
  assert (0 < um)%Q as Hum0.
  { apply Rlt_Qlt. replace (Q2R 0) with 0%R by (unfold Q2R; simpl; field). lra. }
  destruct (to_Q_positive _ _ Hum Hum0) as (my & ey & Hmeq & _).
  now exists my, ey.
Qed.

(** X16: the similarity is symmetric, whatever the records hold: [b - a] is
    [-(a - b)] in binary64 too, and a square forgets the sign. *)
Theorem euclideanSimilarity_binary64_symmetric (catalog : list string) (a b : Player) :
  Binary64.euclideanSimilarity catalog a b = Binary64.euclideanSimilarity catalog b a.
Proof. unfold Binary64.euclideanSimilarity. now rewrite sum_sq_binary64_sym. Qed.

(** X17: a record with finite catalog metrics is at similarity 100 to
    itself: every difference is [+0], so the distance is [+0] and the
    score is the product [1 * 100]. *)
Theorem euclideanSimilarity_binary64_self (catalog : list string) (a : Player) :
  catalog <> [] -> (length catalog <= 1000)%nat ->
  Forall (fun m => Binary64.finite (Binary64.metric_value a m)) catalog ->
  Binary64.to_int (Binary64.euclideanSimilarity catalog a a) = Some 100.
Proof.
  intros Hne Hlen Hfin.
  assert (1 <= length catalog)%nat as Hlen1 by (destruct catalog; [contradiction | simpl; lia]).
  unfold Binary64.euclideanSimilarity. rewrite sum_sq_binary64_eq.
  unfold Binary64.squared_distance, Binary64.sum_of.
  rewrite sum_from_zeros.
  - destruct (maxDist_binary64_positive (length catalog) ltac:(lia)) as (m & e & ->).
    reflexivity.
  - rewrite Forall_map. eapply Forall_impl; [exact Hfin|]. intros m Hm. simpl.
    now rewrite sub_self.
Qed.

Lemma euclideanSimilarity_binary64_self_witness :
  Binary64.to_int (Binary64.euclideanSimilarity METRICS one_decimal one_decimal) = Some 100.
Proof.
  apply euclideanSimilarity_binary64_self.
  - discriminate.
  - vm_compute. lia.
  - repeat (apply List.Forall_cons; [vm_compute; exact I|]); apply List.Forall_nil.
Defined.

(** X18: the scores read the catalog only: two records with the same catalog
    columns get the same overall rating and the same similarity to any
    third record, and the same fit for a template over the catalog. *)
Theorem scores_binary64_read_catalog_only
    (catalog : list string) (p q r : Player) (template : list (string * Q)) :
  Forall (fun m => metrics p !! m = metrics q !! m) catalog ->
  Binary64.computeOverall catalog p = Binary64.computeOverall catalog q
  /\ Binary64.euclideanSimilarity catalog p r = Binary64.euclideanSimilarity catalog q r
  /\ Binary64.euclideanSimilarity catalog r p = Binary64.euclideanSimilarity catalog r q
  /\ (Forall (fun mw => fst mw ∈ catalog) template ->
      Binary64.calcRoleFit p template = Binary64.calcRoleFit q template).
Proof.
  intros Hagree.
  assert (forall m, m ∈ catalog -> Binary64.metric_value p m = Binary64.metric_value q m)
    as Hmv.
  { intros m Hm. rewrite Forall_forall in Hagree. unfold Binary64.metric_value.
    now rewrite (Hagree m Hm). }
  assert (map (Binary64.metric_value p) catalog = map (Binary64.metric_value q) catalog)
    as Hmap.
  { clear Hagree. induction catalog as [|m catalog IH]; [reflexivity|]. simpl.
    rewrite (Hmv m) by apply list_elem_of_here. f_equal. apply IH.
    intros m' Hm'. apply Hmv. now apply list_elem_of_further. }
  assert (forall x, Binary64.squared_distance catalog p x = Binary64.squared_distance catalog q x)
    as Hsd.
  { intros x. unfold Binary64.squared_distance. f_equal.
    clear Hagree Hmap. induction catalog as [|m catalog IH]; [reflexivity|]. simpl.
    rewrite (Hmv m) by apply list_elem_of_here. f_equal. apply IH.
    intros m' Hm'. apply Hmv. now apply list_elem_of_further. }
  split; [|split; [|split]].
  - rewrite !computeOverall_binary64_eq. unfold Binary64.metric_mean. now rewrite Hmap.
  - unfold Binary64.euclideanSimilarity. now rewrite !sum_sq_binary64_eq, Hsd.
  - unfold Binary64.euclideanSimilarity.
    rewrite (sum_sq_binary64_sym catalog r p), (sum_sq_binary64_sym catalog r q).
    now rewrite !sum_sq_binary64_eq, Hsd.
  - intros Htemplate. rewrite !calcRoleFit_binary64_eq. unfold Binary64.weighted_sum.
    do 3 f_equal.
    induction Htemplate as [|[m w] template Hm _ IH]; [reflexivity|]. simpl in *.
    now rewrite (Hmv m Hm), IH.
Qed.

Lemma scores_binary64_read_catalog_only_witness :
  Binary64.computeOverall METRICS ada = Binary64.computeOverall METRICS ada_renamed
  /\ Binary64.euclideanSimilarity METRICS ada bo
     = Binary64.euclideanSimilarity METRICS ada_renamed bo.
Proof.
  destruct (scores_binary64_read_catalog_only METRICS ada ada_renamed bo [])
    as (H1 & H2 & _).
  - repeat (apply List.Forall_cons; [vm_compute; reflexivity|]); apply List.Forall_nil.
  - split; assumption.
Defined.
